(** * File-system navigator: a shallow embedding of [navigator.cpp]

    The program keeps a tree of heap-allocated [Node]s.  Every node carries a
    raw [parent] pointer and an ordered [std::map] from child names to owned
    child nodes; [FileSystem] owns the root and a raw [currentDirectory]
    pointer into the tree.  Because the code walks the tree in both
    directions through pointers, the embedding keeps an explicit store of
    nodes addressed by natural numbers.  Dereferencing an address outside the
    store (undefined behaviour in C++) and running out of recursion fuel both
    yield [None]; the theorems show that neither happens in a reachable
    state.  The operations are [void] and report through [std::cout], so
    each one returns the list of lines it prints. *)

From Stdlib Require Import String Ascii List Arith NArith Lia Bool Sorted.
Import ListNotations.
Local Open Scope string_scope.

Notation "x <- c ;; k" := (match c with Some x => k | None => None end)
  (at level 61, c at next level, right associativity).

(** ** [std::map<std::string, V>] as a key-sorted association list *)

Module StdMap.

Definition t (V : Type) := list (string * V).

(** [std::less<std::string>]: lexicographic on the bytes, a proper prefix
    comes first. *)
Definition key_lt (a b : string) : Prop := String.compare a b = Lt.

Definition entry_lt {V} (x y : string * V) : Prop := key_lt (fst x) (fst y).

(** [m.count(k)] *)
Fixpoint count {V} (k : string) (m : t V) : nat :=
  match m with
  | [] => 0
  | (k', _) :: m' => if k =? k' then 1 else count k m'
  end.

(** [m.find(k)], [m[k]] on a key that is present *)
Fixpoint find {V} (k : string) (m : t V) : option V :=
  match m with
  | [] => None
  | (k', v) :: m' => if k =? k' then Some v else find k m'
  end.

(** [m[k] = v] *)
Fixpoint insert {V} (k : string) (v : V) (m : t V) : t V :=
  match m with
  | [] => [(k, v)]
  | (k', v') :: m' =>
      match String.compare k k' with
      | Lt => (k, v) :: (k', v') :: m'
      | Eq => (k, v) :: m'
      | Gt => (k', v') :: insert k v m'
      end
  end.

Definition keys {V} (m : t V) : list string := map fst m.

Definition sorted {V} (m : t V) : Prop := StronglySorted entry_lt m.

End StdMap.

(** ** Nodes and the store *)

Inductive NodeType := FILE | DIRECTORY.

Definition addr := nat.

(** [Node* parent] is [None] for [nullptr]. *)
Record Node := mkNode {
  name : string;
  type : NodeType;
  parent : option addr;
  children : StdMap.t addr
}.

Record FileSystem := mkFileSystem {
  mem : list Node;
  root : addr;
  currentDirectory : addr
}.

Definition deref (fs : FileSystem) (p : addr) : option Node :=
  nth_error (mem fs) p.

Fixpoint update {A} (l : list A) (i : nat) (x : A) : list A :=
  match l, i with
  | [], _ => []
  | _ :: l', O => x :: l'
  | y :: l', S i' => y :: update l' i' x
  end.

(** [std::make_unique<Node>(...)]: a fresh address past every live node. *)
Definition make_unique (n : Node) (fs : FileSystem) : addr * FileSystem :=
  (List.length (mem fs),
   mkFileSystem (mem fs ++ [n]) (root fs) (currentDirectory fs)).

(** [p->children[k] = std::move(c)] *)
Definition set_child (fs : FileSystem) (p : addr) (k : string) (c : addr)
  : option FileSystem :=
  n <- deref fs p ;;
  Some (mkFileSystem
          (update (mem fs) p
             (mkNode (name n) (type n) (parent n)
                (StdMap.insert k c (children n))))
          (root fs) (currentDirectory fs)).

Definition set_currentDirectory (fs : FileSystem) (p : addr) : FileSystem :=
  mkFileSystem (mem fs) (root fs) p.

(** ** Private helpers of [FileSystem] *)

(** [std::getline(ss, part, '/')]: [None] when the stream is exhausted;
    otherwise the characters up to the next delimiter (which is consumed) and
    the rest of the stream. *)
Fixpoint read_until (delim : ascii) (ss : string) : string * string :=
  match ss with
  | EmptyString => (EmptyString, EmptyString)
  | String c rest =>
      if Ascii.eqb c delim then (EmptyString, rest)
      else let (part, ss') := read_until delim rest in (String c part, ss')
  end.

Definition getline (ss : string) (delim : ascii) : option (string * string) :=
  match ss with
  | EmptyString => None
  | _ => Some (read_until delim ss)
  end.

Fixpoint splitPath_loop (fuel : nat) (ss : string) : list string :=
  match fuel with
  | O => []
  | S fuel' =>
      match getline ss "/"%char with
      | None => []
      | Some (part, ss') =>
          if part =? "" then splitPath_loop fuel' ss'
          else part :: splitPath_loop fuel' ss'
      end
  end.

(** Every successful [getline] consumes at least one character, so the loop
    runs at most [length path] times. *)
Definition splitPath (path : string) : list string :=
  splitPath_loop (S (String.length path)) path.

(** [name.find('/')] *)
Fixpoint string_find (c : ascii) (s : string) : option nat :=
  match s with
  | EmptyString => None
  | String c' s' =>
      if Ascii.eqb c' c then Some 0
      else match string_find c s' with Some i => Some (S i) | None => None end
  end.

Definition isValidName (name : string) : bool :=
  match string_find "/"%char name with None => true | Some _ => false end.

Definition nameExists (fs : FileSystem) (name : string) : option bool :=
  cur <- deref fs (currentDirectory fs) ;;
  Some (0 <? StdMap.count name (children cur))%nat.

(** The result is [Some None] for a returned [nullptr]. *)
Fixpoint navigateToPath (fs : FileSystem) (parts : list string)
    (targetNode : addr) : option (option addr) :=
  match parts with
  | [] => Some (Some targetNode)
  | part :: rest =>
      if part =? ".." then
        t <- deref fs targetNode ;;
        match parent t with
        | Some p => navigateToPath fs rest p
        | None => navigateToPath fs rest targetNode
        end
      else if negb (part =? ".") then
        t <- deref fs targetNode ;;
        match type t with
        | FILE => Some None
        | DIRECTORY =>
            if (0 <? StdMap.count part (children t))%nat then
              child <- StdMap.find part (children t) ;;
              c <- deref fs child ;;
              match type c with
              | DIRECTORY => navigateToPath fs rest child
              | FILE => Some None
              end
            else Some None
        end
      else navigateToPath fs rest targetNode
  end.

Definition parent_is (n : Node) (p : addr) : bool :=
  match parent n with Some q => (q =? p)%nat | None => false end.

(** [getPath]; the recursion climbs [parent] pointers, so it is bounded by
    the number of nodes. *)
Fixpoint getPath_rec (fuel : nat) (fs : FileSystem) (node : addr)
  : option string :=
  match fuel with
  | O => None
  | S fuel' =>
      if (node =? root fs)%nat then Some "/"
      else
        n <- deref fs node ;;
        if parent_is n (root fs) then Some ("/" ++ name n)
        else
          match parent n with
          | Some p =>
              s <- getPath_rec fuel' fs p ;;
              Some (s ++ "/" ++ name n)
          | None => None
          end
  end.

Definition getPath (fs : FileSystem) (node : addr) : option string :=
  getPath_rec (S (List.length (mem fs))) fs node.

(** The loop [for (it = m.begin(); it != m.end(); ++it) body(it->second)]
    over a map, threading the state the body updates. *)
Fixpoint for_each {A} (body : addr -> A -> option A) (it : StdMap.t addr)
    (acc : A) : option A :=
  match it with
  | [] => Some acc
  | (_, c) :: it' => acc' <- body c acc ;; for_each body it' acc'
  end.

(** [find_helper]; [results] is the vector passed by reference.  The
    recursion descends through [children], so it too is bounded by the number
    of nodes. *)
Fixpoint find_helper (fuel : nat) (fs : FileSystem) (startNode : addr)
    (targetName : string) (results : list string) : option (list string) :=
  match fuel with
  | O => None
  | S fuel' =>
      n <- deref fs startNode ;;
      results1 <-
        (if name n =? targetName then
           p <- getPath fs startNode ;; Some (results ++ [p])%list
         else Some results) ;;
      match type n with
      | DIRECTORY =>
          for_each (fun c r => find_helper fuel' fs c targetName r)
            (children n) results1
      | FILE => Some results1
      end
  end.

(** ** Public operations

    Each operation returns the new state together with the lines it writes
    to [std::cout]. *)

Definition FileSystem_new : FileSystem :=
  mkFileSystem [mkNode "/" DIRECTORY None []] 0 0.

Definition pwd (fs : FileSystem) : option (list string) :=
  p <- getPath fs (currentDirectory fs) ;; Some [p].

Fixpoint ls_loop (fs : FileSystem) (it : StdMap.t addr)
  : option (list string) :=
  match it with
  | [] => Some []
  | (k, c) :: it' =>
      n <- deref fs c ;;
      out <- ls_loop fs it' ;;
      Some ((k ++ match type n with DIRECTORY => "/" | FILE => "" end) :: out)
  end.

Definition ls (fs : FileSystem) : option (list string) :=
  cur <- deref fs (currentDirectory fs) ;;
  ls_loop fs (children cur).

Definition err_dir_name : string := "Error: Directory name cannot contain '/'.".
Definition err_file_name : string := "Error: File name cannot contain '/'.".
Definition err_exists (name : string) : string :=
  "Error: '" ++ name ++ "' already exists.".
Definition err_path (path : string) : string :=
  "Error: Invalid path '" ++ path ++ "'.".
Definition msg_not_found (name : string) : string :=
  "No file or directory named '" ++ name ++ "' found.".

Definition create (ty : NodeType) (err_name : string) (nm : string)
    (fs : FileSystem) : option (FileSystem * list string) :=
  if negb (isValidName nm) then Some (fs, [err_name])
  else
    e <- nameExists fs nm ;;
    if (e : bool) then Some (fs, [err_exists nm])
    else
      let (p, fs1) := make_unique (mkNode nm ty (Some (currentDirectory fs)) []) fs in
      fs2 <- set_child fs1 (currentDirectory fs1) nm p ;;
      Some (fs2, []).

Definition mkdir (dirName : string) (fs : FileSystem)
  : option (FileSystem * list string) :=
  create DIRECTORY err_dir_name dirName fs.

Definition touch (fileName : string) (fs : FileSystem)
  : option (FileSystem * list string) :=
  create FILE err_file_name fileName fs.

(** [path[0] == '/']; on an empty [std::string], [path[0]] is the
    terminating null character. *)
Definition starts_with_slash (path : string) : bool :=
  match path with
  | String c _ => Ascii.eqb c "/"%char
  | EmptyString => false
  end.

Definition cd (path : string) (fs : FileSystem)
  : option (FileSystem * list string) :=
  if path =? "/" then Some (set_currentDirectory fs (root fs), [])
  else
    let targetNode :=
      if starts_with_slash path then root fs else currentDirectory fs in
    let parts := splitPath path in
    r <- navigateToPath fs parts targetNode ;;
    match r with
    | Some t => Some (set_currentDirectory fs t, [])
    | None => Some (fs, [err_path path])
    end.

Definition find_results (fs : FileSystem) (name : string)
  : option (list string) :=
  find_helper (List.length (mem fs)) fs (root fs) name [].

Definition find (fs : FileSystem) (name : string) : option (list string) :=
  results <- find_results fs name ;;
  match results with
  | [] => Some [msg_not_found name]
  | _ => Some results
  end.

(** ** Vocabulary of the specification *)

(** Following child keys downwards from [p]. *)
Fixpoint walk (fs : FileSystem) (names : list string) (p : addr)
  : option addr :=
  match names with
  | [] => Some p
  | s :: rest =>
      n <- deref fs p ;;
      c <- StdMap.find s (children n) ;;
      walk fs rest c
  end.

(** "Absolute path: path string built by concatenating the separator and
    each node's name from root down to a target node"; the root itself is
    written ["/"]. *)
Definition join (names : list string) : string :=
  fold_right (fun nm acc => "/" ++ nm ++ acc) "" names.

Definition abs_path (names : list string) : string :=
  match names with
  | [] => "/"
  | _ => join names
  end.

Definition is_abs_path_of (fs : FileSystem) (a : addr) (s : string) : Prop :=
  exists names, walk fs names (root fs) = Some a /\ s = abs_path names.

(** "Depth-first pre-order traversal ...: visit a node ...; then, if the node
    is a Directory, recurse into each child in ascending key order."  The
    children are taken in the iteration order of the map. *)
Fixpoint concat_each (f : addr -> option (list addr)) (it : StdMap.t addr)
  : option (list addr) :=
  match it with
  | [] => Some []
  | (_, c) :: it' =>
      l <- f c ;; r <- concat_each f it' ;; Some (l ++ r)%list
  end.

Fixpoint preorder (fuel : nat) (fs : FileSystem) (p : addr)
  : option (list addr) :=
  match fuel with
  | O => None
  | S fuel' =>
      n <- deref fs p ;;
      match type n with
      | DIRECTORY =>
          sub <- concat_each (preorder fuel' fs) (children n) ;;
          Some (p :: sub)
      | FILE => Some [p]
      end
  end.

Definition has_name (fs : FileSystem) (nm : string) (a : addr) : bool :=
  match deref fs a with
  | Some n => name n =? nm
  | None => false
  end.

(** A path segment that [cd] can follow into a child: [splitPath] never
    yields an empty segment or one with a separator, and [navigateToPath]
    treats ["."] and [".."] specially. *)
Definition segment_ok (s : string) : Prop :=
  s <> "" /\ isValidName s = true /\ s <> "." /\ s <> "..".

(** The cursor refers to a live Directory node reachable from the root. *)
Definition cursor_ok (fs : FileSystem) : Prop :=
  exists names n,
    walk fs names (root fs) = Some (currentDirectory fs) /\
    deref fs (currentDirectory fs) = Some n /\
    type n = DIRECTORY.

(** A directory that path navigation can enter from the root. *)
Definition navigable (fs : FileSystem) (t : addr) : Prop :=
  exists names n,
    Forall segment_ok names /\
    walk fs names 0 = Some t /\
    deref fs t = Some n /\
    type n = DIRECTORY.

(** Shape of the store in every state the program can be in. *)
Record wf (fs : FileSystem) : Prop := mk_wf {
  wf_root :
    root fs = 0 /\
    exists r, deref fs 0 = Some r /\
      name r = "/" /\ type r = DIRECTORY /\ parent r = None;
  wf_parent : forall i n,
    deref fs i = Some n -> i <> 0 ->
    exists p pn, parent n = Some p /\ p < i /\ deref fs p = Some pn /\
      StdMap.find (name n) (children pn) = Some i /\
      isValidName (name n) = true;
  wf_children : forall i n k c,
    deref fs i = Some n -> In (k, c) (children n) ->
    exists cn, deref fs c = Some cn /\ name cn = k /\ parent cn = Some i;
  wf_file : forall i n,
    deref fs i = Some n -> type n = FILE -> children n = [];
  wf_sorted : forall i n,
    deref fs i = Some n -> StdMap.sorted (children n);
  wf_cursor : navigable fs (currentDirectory fs)
}.

(** States obtained from a fresh [FileSystem] through its public
    operations; [pwd], [ls] and [find] only read the state. *)
Inductive reachable : FileSystem -> Prop :=
| reach_new : reachable FileSystem_new
| reach_mkdir fs nm fs' out :
    reachable fs -> mkdir nm fs = Some (fs', out) -> reachable fs'
| reach_touch fs nm fs' out :
    reachable fs -> touch nm fs = Some (fs', out) -> reachable fs'
| reach_cd fs path fs' out :
    reachable fs -> cd path fs = Some (fs', out) -> reachable fs'.

(** The state after a successful [mkdir]/[touch] of [nm] when the cursor
    node is [cur]: a fresh node is allocated and linked into [cur]. *)
Definition created (ty : NodeType) (nm : string) (fs : FileSystem)
    (cur : Node) : FileSystem :=
  mkFileSystem
    (update (mem fs ++ [mkNode nm ty (Some (currentDirectory fs)) []])
       (currentDirectory fs)
       (mkNode (name cur) (type cur) (parent cur)
          (StdMap.insert nm (List.length (mem fs)) (children cur))))
    (root fs) (currentDirectory fs).

(** "name ... contains the separator character" *)
Definition contains_separator (nm : string) : Prop :=
  In "/"%char (list_ascii_of_string nm).

(** One line of [ls]: the name, with a [/] suffix for a directory. *)
Definition render_entry (e : string * NodeType) : string :=
  fst e ++ match snd e with DIRECTORY => "/" | FILE => "" end.

(** The node at which [cd] starts resolving [path]. *)
Definition cd_start (path : string) (fs : FileSystem) : addr :=
  if starts_with_slash path then root fs else currentDirectory fs.

(** The last character of [s] is [c]. *)
Fixpoint ends_with (c : ascii) (s : string) : bool :=
  match s with
  | EmptyString => false
  | String x s' =>
      match s' with
      | EmptyString => Ascii.eqb x c
      | _ => ends_with c s'
      end
  end.

(** The state [main] builds before it starts reading commands, with the
    cursor moved to [/home/user]. *)
Definition sample : FileSystem :=
  mkFileSystem
    [mkNode "/" DIRECTORY None [("home", 1)];
     mkNode "home" DIRECTORY (Some 0) [("readme.txt", 3); ("user", 2)];
     mkNode "user" DIRECTORY (Some 1)
       [("Documents", 4); ("Downloads", 5); ("profile.txt", 6)];
     mkNode "readme.txt" FILE (Some 1) [];
     mkNode "Documents" DIRECTORY (Some 2) [("report.docx", 7)];
     mkNode "Downloads" DIRECTORY (Some 2) [];
     mkNode "profile.txt" FILE (Some 2) [];
     mkNode "report.docx" FILE (Some 4) []]
    0 2.

(** The (name, kind) pair [list()] reports for one entry of a children
    map. *)
Definition is_entry (fs : FileSystem) (kc : string * addr)
    (e : string * NodeType) : Prop :=
  fst e = fst kc /\
  exists n, deref fs (snd kc) = Some n /\ name n = fst e /\ type n = snd e.

(** ** The command loop

    [main] builds a demonstration tree, greets, and then reads commands from
    [std::cin] until [exit] or end of input.  [std::cin] is the string of
    characters still to be read and [std::cout] the string written. *)



(** [std::isspace] in the default locale. *)
Definition isspace (c : ascii) : bool :=
  Ascii.eqb c " "%char || Ascii.eqb c "009"%char || Ascii.eqb c "010"%char ||
  Ascii.eqb c "011"%char || Ascii.eqb c "012"%char || Ascii.eqb c "013"%char.

Fixpoint skip_ws (ss : string) : string :=
  match ss with
  | EmptyString => EmptyString
  | String c rest => if isspace c then skip_ws rest else ss
  end.

Fixpoint read_word (ss : string) : string * string :=
  match ss with
  | EmptyString => (EmptyString, EmptyString)
  | String c rest =>
      if isspace c then (EmptyString, ss)
      else let (w, ss') := read_word rest in (String c w, ss')
  end.

(** [ss >> str]: leading white space is skipped; [None] when nothing is
    left to extract, in which case [str] keeps its value. *)
Definition extract (ss : string) : option (string * string) :=
  match skip_ws ss with
  | EmptyString => None
  | ss' => Some (read_word ss')
  end.

(** [ss >> command >> argument] on strings that were cleared. *)
Definition parse_line (line : string) : string * string :=
  match extract line with
  | None => ("", "")
  | Some (command, ss) =>
      match extract ss with
      | None => (command, "")
      | Some (argument, _) => (command, argument)
      end
  end.

(** [show_help] *)
Definition show_help : list string :=
  ["File System Navigator Commands:";
   "  ls          - List contents of the current directory";
   "  mkdir <name>- Create a new directory";
   "  touch <name>- Create a new empty file";
   "  cd <path>   - Change directory (e.g., 'cd /', 'cd ..', 'cd my_folder')";
   "  pwd         - Print the current working directory path";
   "  find <name> - Search for a file or directory from the root";
   "  help        - Show this help message";
   "  exit        - Exit the navigator";
   ""].

Definition usage (what : string) : string := "Usage: " ++ what.

Definition msg_unknown (command : string) : string :=
  "Unknown command: '" ++ command ++
  "'. Type 'help' for a list of commands.".

(** The dispatch on [command] in the body of the loop ([exit] apart). *)
Definition dispatch (fs : FileSystem) (command argument : string)
  : option (FileSystem * list string) :=
  if command =? "pwd" then out <- pwd fs ;; Some (fs, out)
  else if command =? "ls" then out <- ls fs ;; Some (fs, out)
  else if command =? "mkdir" then
    if argument =? "" then Some (fs, [usage "mkdir <name>"])
    else mkdir argument fs
  else if command =? "touch" then
    if argument =? "" then Some (fs, [usage "touch <name>"])
    else touch argument fs
  else if command =? "cd" then
    if argument =? "" then Some (fs, [usage "cd <path>"])
    else cd argument fs
  else if command =? "find" then
    if argument =? "" then Some (fs, [usage "find <name>"])
    else out <- find fs argument ;; Some (fs, out)
  else if command =? "help" then Some (fs, show_help)
  else if negb (command =? "") then Some (fs, [msg_unknown command])
  else Some (fs, []).


(** Operations in sequence, their output collected. *)
Fixpoint run (ops : list (FileSystem -> option (FileSystem * list string)))
    (fs : FileSystem) : option (FileSystem * list string) :=
  match ops with
  | [] => Some (fs, [])
  | op :: ops' =>
      r <- op fs ;;
      r' <- run ops' (fst r) ;;
      Some (fst r', (snd r ++ snd r')%list)
  end.

(** The sample directory structure [main] creates first. *)
Definition setup : list (FileSystem -> option (FileSystem * list string)) :=
  [mkdir "home"; cd "home"; mkdir "user"; touch "readme.txt"; cd "user";
   mkdir "Documents"; mkdir "Downloads"; touch "profile.txt";
   cd "Documents"; touch "report.docx"; cd "/"].


(** States of the file system while the command loop runs. *)
Inductive cli_reachable : FileSystem -> Prop :=
| cli_start fs out :
    run setup FileSystem_new = Some (fs, out) -> cli_reachable fs
| cli_step fs line fs' out :
    cli_reachable fs ->
    dispatch fs (fst (parse_line line)) (snd (parse_line line))
      = Some (fs', out) ->
    cli_reachable fs'.

(** No white space in [s]. *)
Fixpoint no_space (s : string) : bool :=
  match s with
  | EmptyString => true
  | String c rest => negb (isspace c) && no_space rest
  end.

(** The path [getPath] gives a child called [nm] of the node whose path is
    [p]. *)
Definition child_path (p nm : string) : string :=
  if p =? "/" then "/" ++ nm else p ++ "/" ++ nm.

(** A segment as [splitPath] produces them. *)
Definition is_segment (s : string) : Prop :=
  s <> "" /\ ~ contains_separator s.

(** The relative path ["../../.../"] with [k] segments [".."]. *)
Fixpoint up_path (k : nat) : string :=
  match k with
  | O => ""
  | S k' => "../" ++ up_path k'
  end.

(** The state in which the command loop starts: the sample tree with the
    cursor back at the root. *)
Definition start_fs : FileSystem :=
  mkFileSystem (mem sample) (root sample) (root sample).

(** Only white space in [s]. *)
Fixpoint all_space (s : string) : bool :=
  match s with
  | EmptyString => true
  | String c rest => isspace c && all_space rest
  end.

(** * Properties *)

(** ** Ordering of keys *)

Section KeyOrder.

Lemma ascii_compare_lt_trans (a b c : ascii) :
  Ascii.compare a b = Lt -> Ascii.compare b c = Lt -> Ascii.compare a c = Lt.
Proof.
  unfold Ascii.compare. rewrite !N.compare_lt_iff. apply N.lt_trans.
Qed.

Lemma ascii_compare_refl (a : ascii) : Ascii.compare a a = Eq.
Proof. apply N.compare_refl. Qed.

Lemma compare_refl (s : string) : String.compare s s = Eq.
Proof.
  induction s as [|a s IH]; simpl; [reflexivity|].
  now rewrite ascii_compare_refl.
Qed.

Lemma key_lt_trans (a b c : string) :
  StdMap.key_lt a b -> StdMap.key_lt b c -> StdMap.key_lt a c.
Proof.
  unfold StdMap.key_lt. revert b c.
  induction a as [|x a IH]; intros [|y b] [|z c]; simpl; try congruence.
  destruct (Ascii.compare x y) eqn:Exy; try discriminate;
    destruct (Ascii.compare y z) eqn:Eyz; try discriminate; intros Hab Hbc.
  - apply Ascii.compare_eq_iff in Exy, Eyz. subst.
    rewrite ascii_compare_refl. eauto.
  - apply Ascii.compare_eq_iff in Exy. subst. now rewrite Eyz.
  - apply Ascii.compare_eq_iff in Eyz. subst. now rewrite Exy.
  - now rewrite (ascii_compare_lt_trans _ _ _ Exy Eyz).
Qed.

Lemma key_lt_irrefl (a : string) : ~ StdMap.key_lt a a.
Proof. unfold StdMap.key_lt. now rewrite compare_refl. Qed.

Lemma key_lt_neq (a b : string) : StdMap.key_lt a b -> a <> b.
Proof. intros H ->. exact (key_lt_irrefl _ H). Qed.

Lemma compare_gt_lt (a b : string) :
  String.compare a b = Gt -> StdMap.key_lt b a.
Proof.
  unfold StdMap.key_lt. intros H.
  rewrite String.compare_antisym, H. reflexivity.
Qed.

End KeyOrder.

(** ** The ordered map *)

Section MapFacts.

Context {V : Type}.
Implicit Types (m : StdMap.t V) (k : string) (v : V).

Lemma find_In k v m : StdMap.find k m = Some v -> In (k, v) m.
Proof.
  induction m as [|[k' v'] m IH]; simpl; [discriminate|].
  destruct (String.eqb_spec k k') as [->|_].
  - intros [= ->]. now left.
  - intros H. right. auto.
Qed.

Lemma count_find k m :
  StdMap.count k m = match StdMap.find k m with Some _ => 1 | None => 0 end.
Proof.
  induction m as [|[k' v'] m IH]; simpl; [reflexivity|].
  now destruct (k =? k').
Qed.

Lemma count_zero_find k m :
  (0 <? StdMap.count k m)%nat = false -> StdMap.find k m = None.
Proof.
  rewrite count_find. now destruct (StdMap.find k m).
Qed.

Lemma find_count_pos k v m :
  StdMap.find k m = Some v -> (0 <? StdMap.count k m)%nat = true.
Proof. rewrite count_find. now intros ->. Qed.

Lemma sorted_In_find k v m :
  StdMap.sorted m -> In (k, v) m -> StdMap.find k m = Some v.
Proof.
  induction 1 as [|[k' v'] m Hs IH Hall]; simpl; [easy|].
  intros [[= -> ->]|Hin].
  - now rewrite String.eqb_refl.
  - destruct (String.eqb_spec k k') as [->|_]; [|auto].
    rewrite Forall_forall in Hall. apply Hall in Hin.
    now apply key_lt_irrefl in Hin.
Qed.

Lemma insert_In k v m k' v' :
  In (k', v') (StdMap.insert k v m) -> (k', v') = (k, v) \/ In (k', v') m.
Proof.
  induction m as [|[k0 v0] m IH]; simpl.
  - intros [H|[]]. now left.
  - destruct (String.compare k k0); simpl; intuition.
Qed.

Lemma find_insert_same k v m : StdMap.find k (StdMap.insert k v m) = Some v.
Proof.
  induction m as [|[k0 v0] m IH]; simpl.
  - now rewrite String.eqb_refl.
  - destruct (String.compare k k0) eqn:E; simpl.
    + now rewrite String.eqb_refl.
    + now rewrite String.eqb_refl.
    + destruct (String.eqb_spec k k0) as [->|_]; [|exact IH].
      now rewrite compare_refl in E.
Qed.

Lemma find_insert_other k v m k' :
  k' <> k -> StdMap.find k' (StdMap.insert k v m) = StdMap.find k' m.
Proof.
  intros Hne. induction m as [|[k0 v0] m IH]; simpl.
  - now rewrite (proj2 (String.eqb_neq k' k)).
  - destruct (String.compare k k0) eqn:E; simpl.
    + apply String.compare_eq_iff in E. subst k0.
      now rewrite (proj2 (String.eqb_neq k' k)).
    + now rewrite (proj2 (String.eqb_neq k' k)).
    + now rewrite IH.
Qed.

Lemma insert_sorted k v m :
  StdMap.sorted m -> StdMap.sorted (StdMap.insert k v m).
Proof.
  unfold StdMap.sorted.
  induction 1 as [|[k0 v0] m Hs IH Hall]; simpl.
  - repeat constructor.
  - destruct (String.compare k k0) eqn:E.
    + apply String.compare_eq_iff in E. subst k0. now constructor.
    + constructor; [now constructor|]. constructor; [exact E|].
      eapply Forall_impl; [|exact Hall].
      intros [k1 v1]. unfold StdMap.entry_lt. simpl.
      apply key_lt_trans. exact E.
    + constructor; [exact IH|].
      rewrite Forall_forall. intros [k1 v1] Hin.
      apply insert_In in Hin. destruct Hin as [[= -> ->]|Hin].
      * now apply compare_gt_lt.
      * rewrite Forall_forall in Hall. now apply Hall.
Qed.

Lemma sorted_keys_NoDup m : StdMap.sorted m -> NoDup (StdMap.keys m).
Proof.
  induction 1 as [|[k0 v0] m Hs IH Hall]; simpl; constructor; [|exact IH].
  intros Hin. apply in_map_iff in Hin. destruct Hin as ([k1 v1] & Hk & Hin).
  simpl in Hk. subst k1.
  rewrite Forall_forall in Hall. apply Hall in Hin.
  now apply key_lt_irrefl in Hin.
Qed.

End MapFacts.

(** ** The store *)

Section Store.

Context {A : Type}.

Lemma update_length (l : list A) i x : List.length (update l i x) = List.length l.
Proof. revert i. induction l; destruct i; simpl; auto. Qed.

Lemma nth_error_update_eq (l : list A) i x :
  i < List.length l -> nth_error (update l i x) i = Some x.
Proof.
  revert i. induction l; destruct i; simpl; intros; try lia; auto.
  apply IHl. lia.
Qed.

Lemma nth_error_update_neq (l : list A) i j x :
  j <> i -> nth_error (update l i x) j = nth_error l j.
Proof.
  revert i j. induction l; destruct i, j; simpl; intros; try easy.
  apply IHl. lia.
Qed.

End Store.

Lemma deref_lt fs i n : deref fs i = Some n -> i < List.length (mem fs).
Proof. intros H. apply nth_error_Some. unfold deref in H. congruence. Qed.

Lemma lt_deref fs i : i < List.length (mem fs) -> exists n, deref fs i = Some n.
Proof.
  intros H. unfold deref. destruct (nth_error (mem fs) i) eqn:E; eauto.
  apply nth_error_None in E. lia.
Qed.

(** ** Consequences of well-formedness *)

Section WellFormed.

Variable fs : FileSystem.
Hypothesis Hwf : wf fs.

Lemma wf_child_lt i n k c :
  deref fs i = Some n -> In (k, c) (children n) -> i < c.
Proof.
  intros Hi Hin.
  destruct (wf_children fs Hwf _ _ _ _ Hi Hin) as (cn & Hc & _ & Hp).
  destruct (Nat.eq_dec c 0) as [->|Hc0].
  - destruct (wf_root fs Hwf) as (_ & r & Hr & _ & _ & Hpr). congruence.
  - destruct (wf_parent fs Hwf _ _ Hc Hc0) as (p & pn & Hp' & Hlt & _).
    congruence.
Qed.

Lemma wf_has_child_dir i n k c :
  deref fs i = Some n -> StdMap.find k (children n) = Some c ->
  type n = DIRECTORY.
Proof.
  intros Hi Hf. destruct (type n) eqn:E; [|reflexivity].
  rewrite (wf_file fs Hwf _ _ Hi E) in Hf. discriminate.
Qed.

Lemma walk_app names1 names2 p :
  walk fs (names1 ++ names2) p =
  (q <- walk fs names1 p ;; walk fs names2 q).
Proof.
  revert p. induction names1 as [|s names1 IH]; intros p; simpl.
  - reflexivity.
  - destruct (deref fs p) as [n|]; [|reflexivity].
    destruct (StdMap.find s (children n)) as [c|]; [|reflexivity].
    apply IH.
Qed.

Lemma walk_snoc names s p q :
  walk fs (names ++ [s]) p = Some q <->
  exists a n, walk fs names p = Some a /\ deref fs a = Some n /\
              StdMap.find s (children n) = Some q.
Proof.
  rewrite walk_app. split.
  - destruct (walk fs names p) as [a|]; [|discriminate]. simpl.
    destruct (deref fs a) as [n|] eqn:Hn; [|discriminate].
    destruct (StdMap.find s (children n)) as [c|] eqn:E; [|discriminate].
    intros [= <-]. eauto.
  - intros (a & n & -> & Hn & Hf). simpl. now rewrite Hn, Hf.
Qed.

Lemma walk_le names p q :
  walk fs names p = Some q -> p + List.length names <= q.
Proof.
  revert p. induction names as [|s names IH]; intros p; simpl.
  - intros [= ->]. lia.
  - destruct (deref fs p) as [n|] eqn:Hn; [|discriminate].
    destruct (StdMap.find s (children n)) as [c|] eqn:Hf; [|discriminate].
    intros H. apply IH in H.
    pose proof (wf_child_lt _ _ _ _ Hn (find_In _ _ _ Hf)). lia.
Qed.

Lemma walk_deref names p q n :
  deref fs p = Some n -> walk fs names p = Some q ->
  exists qn, deref fs q = Some qn.
Proof.
  intros Hp. destruct names as [|s names _] using List.rev_ind.
  - simpl. intros [= <-]. eauto.
  - intros Hw. apply walk_snoc in Hw.
    destruct Hw as (a & an & _ & Ha & Hf).
    destruct (wf_children fs Hwf _ _ _ _ Ha (find_In _ _ _ Hf)) as (cn & ? & _).
    eauto.
Qed.

(** The names along a downward walk are determined by its end points. *)
Lemma walk_inj names1 : forall names2 p q,
  walk fs names1 p = Some q -> walk fs names2 p = Some q -> names1 = names2.
Proof.
  induction names1 as [|s1 names1 IH] using List.rev_ind;
    intros names2 p q H1 H2.
  - simpl in H1. injection H1 as <-.
    apply walk_le in H2. destruct names2; [reflexivity|simpl in H2; lia].
  - destruct names2 as [|s2 names2 _] using List.rev_ind.
    + simpl in H2. injection H2 as <-.
      apply walk_le in H1. rewrite length_app in H1. simpl in H1. lia.
    + apply walk_snoc in H1, H2.
      destruct H1 as (a1 & n1 & Hw1 & Hd1 & Hf1).
      destruct H2 as (a2 & n2 & Hw2 & Hd2 & Hf2).
      destruct (wf_children fs Hwf _ _ _ _ Hd1 (find_In _ _ _ Hf1))
        as (c1 & Hc1 & Hn1 & Hp1).
      destruct (wf_children fs Hwf _ _ _ _ Hd2 (find_In _ _ _ Hf2))
        as (c2 & Hc2 & Hn2 & Hp2).
      assert (c1 = c2) by congruence. subst c2.
      assert (a1 = a2) by congruence. subst a2.
      f_equal; [eapply IH; eassumption | congruence].
Qed.

(** Every live node is reached from the root by exactly the names of its
    ancestors and itself. *)
Lemma walk_total : forall i n,
  deref fs i = Some n -> exists names, walk fs names 0 = Some i.
Proof.
  induction i as [i IH] using lt_wf_ind. intros n Hi.
  destruct (Nat.eq_dec i 0) as [->|Hi0]; [now exists []|].
  destruct (wf_parent fs Hwf _ _ Hi Hi0) as (p & pn & _ & Hlt & Hp & Hf & _).
  destruct (IH p Hlt pn Hp) as (names & Hw).
  exists (names ++ [name n])%list. apply walk_snoc. eauto.
Qed.

End WellFormed.

(** ** Creation *)

Lemma create_inv ty err nm fs fs' out :
  create ty err nm fs = Some (fs', out) ->
  (isValidName nm = false /\ fs' = fs /\ out = [err]) \/
  (isValidName nm = true /\
   exists cur, deref fs (currentDirectory fs) = Some cur /\
     ((exists c, StdMap.find nm (children cur) = Some c) /\
        fs' = fs /\ out = [err_exists nm] \/
      StdMap.find nm (children cur) = None /\
        fs' = created ty nm fs cur /\ out = [])).
Proof.
  unfold create, nameExists, set_child, make_unique.
  destruct (isValidName nm); cbn [negb]; [|intros [= <- <-]; now left].
  destruct (deref fs (currentDirectory fs)) as [cur|] eqn:Hcur; [|discriminate].
  rewrite count_find.
  destruct (StdMap.find nm (children cur)) as [c|] eqn:Hf; simpl.
  - intros [= <- <-]. right. split; [reflexivity|]. exists cur. eauto 6.
  - unfold deref. simpl.
    rewrite nth_error_app1 by (eapply deref_lt; eassumption).
    unfold deref in Hcur. rewrite Hcur.
    intros [= <- <-]. right. split; [reflexivity|]. exists cur. auto.
Qed.

Section Created.

Variables (ty : NodeType) (nm : string) (fs : FileSystem) (cur : Node).
Hypothesis Hcur : deref fs (currentDirectory fs) = Some cur.

Let fs' := created ty nm fs cur.
Let fresh := List.length (mem fs).
Let cur' :=
  mkNode (name cur) (type cur) (parent cur)
    (StdMap.insert nm fresh (children cur)).
Let new := mkNode nm ty (Some (currentDirectory fs)) [].

Lemma deref_created_cur : deref fs' (currentDirectory fs) = Some cur'.
Proof.
  unfold deref, fs', created. simpl. apply nth_error_update_eq.
  rewrite length_app. apply deref_lt in Hcur. lia.
Qed.

Lemma deref_created_fresh : deref fs' fresh = Some new.
Proof.
  unfold deref, fs', created. simpl.
  rewrite nth_error_update_neq
    by (apply deref_lt in Hcur; unfold fresh; lia).
  rewrite nth_error_app2 by (unfold fresh; lia).
  unfold fresh. now rewrite Nat.sub_diag.
Qed.

Lemma deref_created_other i :
  i <> currentDirectory fs -> i <> fresh -> deref fs' i = deref fs i.
Proof.
  intros H1 H2. unfold deref, fs', created. simpl.
  rewrite nth_error_update_neq by assumption.
  destruct (Nat.lt_ge_cases i fresh) as [Hlt|Hge].
  - now apply nth_error_app1.
  - transitivity (@None Node); [|symmetry]; apply nth_error_None.
    + rewrite length_app. simpl. unfold fresh in *. lia.
    + exact Hge.
Qed.

(** What a node of the new store looks like in terms of the old one. *)
Lemma deref_created_inv i n :
  deref fs' i = Some n ->
  (i = currentDirectory fs /\ n = cur') \/
  (i = fresh /\ n = new) \/
  (i <> currentDirectory fs /\ i <> fresh /\ deref fs i = Some n).
Proof.
  destruct (Nat.eq_dec i (currentDirectory fs)) as [->|H1].
  - rewrite deref_created_cur. intros [= <-]. now left.
  - destruct (Nat.eq_dec i fresh) as [->|H2].
    + rewrite deref_created_fresh. intros [= <-]. right. now left.
    + rewrite deref_created_other by assumption. intros H. right. now right.
Qed.

(** Old nodes keep their name, type and parent. *)
Lemma deref_created_old i n :
  deref fs i = Some n ->
  exists n', deref fs' i = Some n' /\
    name n' = name n /\ type n' = type n /\ parent n' = parent n /\
    (forall k c, StdMap.find k (children n) = Some c ->
                 StdMap.find nm (children cur) = None ->
                 StdMap.find k (children n') = Some c).
Proof.
  intros Hi.
  destruct (Nat.eq_dec i (currentDirectory fs)) as [->|H1].
  - exists cur'. rewrite deref_created_cur.
    assert (n = cur) by congruence. subst n.
    repeat split; try reflexivity.
    intros k c Hk Hnm. simpl. rewrite find_insert_other; [assumption|].
    congruence.
  - exists n. rewrite deref_created_other; auto.
    apply deref_lt in Hi. unfold fresh. lia.
Qed.

Lemma walk_created names p q :
  StdMap.find nm (children cur) = None ->
  walk fs names p = Some q -> walk fs' names p = Some q.
Proof.
  intros Hnm. revert p. induction names as [|s names IH]; intros p; simpl.
  - auto.
  - destruct (deref fs p) as [n|] eqn:Hn; [|discriminate].
    destruct (StdMap.find s (children n)) as [c|] eqn:Hf; [|discriminate].
    destruct (deref_created_old _ _ Hn) as (n' & -> & _ & _ & _ & Hch).
    rewrite (Hch _ _ Hf Hnm). apply IH.
Qed.

End Created.

Lemma created_wf ty nm fs cur :
  wf fs ->
  deref fs (currentDirectory fs) = Some cur ->
  StdMap.find nm (children cur) = None ->
  isValidName nm = true ->
  wf (created ty nm fs cur).
Proof.
  intros Hwf Hcur Hnm Hvalid.
  pose proof (deref_created_inv ty nm fs cur Hcur) as Hinv.
  pose proof (deref_created_old ty nm fs cur Hcur) as Hold.
  assert (Hdir : type cur = DIRECTORY).
  { destruct (wf_cursor fs Hwf) as (_ & n & _ & _ & Hn & Ht). congruence. }
  (* every node of the new store that is not the fresh one extends an old one *)
  assert (Hback : forall i n, deref (created ty nm fs cur) i = Some n ->
            i <> List.length (mem fs) ->
            exists n0, deref fs i = Some n0 /\
              name n = name n0 /\ type n = type n0 /\ parent n = parent n0 /\
              (forall k c, In (k, c) (children n) ->
                 (i = currentDirectory fs /\ (k, c) = (nm, List.length (mem fs)))
                 \/ In (k, c) (children n0))).
  { intros i n Hi Hne. destruct (Hinv _ _ Hi) as [[-> ->]|[[-> _]|(_ & _ & H0)]].
    - exists cur. repeat split; auto. simpl. intros k c Hin.
      apply insert_In in Hin. intuition.
    - contradiction.
    - exists n. repeat split; auto. }
  constructor.
  - destruct (wf_root fs Hwf) as (Hr & r & Hd & Hn & Ht & Hp).
    split; [exact Hr|].
    destruct (Hold _ _ Hd) as (r' & Hd' & Hn' & Ht' & Hp' & _).
    exists r'. repeat split; congruence.
  - intros i n Hi Hi0.
    destruct (Nat.eq_dec i (List.length (mem fs))) as [->|Hne].
    + rewrite deref_created_fresh in Hi by assumption. injection Hi as <-.
      simpl. eexists _, _. split; [reflexivity|].
      split; [eapply deref_lt; eassumption|].
      split; [apply deref_created_cur; assumption|].
      simpl. split; [apply find_insert_same | assumption].
    + destruct (Hback _ _ Hi Hne) as (n0 & H0 & Hn & _ & Hp & _).
      destruct (wf_parent fs Hwf _ _ H0 Hi0) as (p & pn & Hp0 & Hlt & Hd & Hf & Hv).
      destruct (Hold _ _ Hd) as (pn' & Hd' & _ & _ & _ & Hch).
      exists p, pn'. rewrite Hn, Hp. repeat split; auto.
  - intros i n k c Hi Hin.
    destruct (Nat.eq_dec i (List.length (mem fs))) as [->|Hne].
    + rewrite deref_created_fresh in Hi by assumption. injection Hi as <-.
      destruct Hin.
    + destruct (Hback _ _ Hi Hne) as (n0 & H0 & _ & _ & _ & Hch).
      destruct (Hch _ _ Hin) as [[-> [= -> ->]]|Hin0].
      * rewrite deref_created_fresh by assumption. eexists. split; [reflexivity|].
        now split.
      * destruct (wf_children fs Hwf _ _ _ _ H0 Hin0) as (cn & Hc & Hcn & Hcp).
        destruct (Hold _ _ Hc) as (cn' & Hc' & Hn' & _ & Hp' & _).
        exists cn'. repeat split; congruence.
  - intros i n Hi Ht. destruct (Hinv _ _ Hi) as [[-> ->]|[[-> ->]|(_ & _ & H0)]].
    + simpl in Ht. congruence.
    + reflexivity.
    + eapply wf_file; eassumption.
  - intros i n Hi. destruct (Hinv _ _ Hi) as [[-> ->]|[[-> ->]|(_ & _ & H0)]].
    + simpl. apply insert_sorted. eapply wf_sorted; eassumption.
    + constructor.
    + eapply wf_sorted; eassumption.
  - destruct (wf_cursor fs Hwf) as (names & n & Hseg & Hw & Hn & Ht).
    exists names. eexists. split; [exact Hseg|].
    split; [exact (walk_created ty nm fs cur Hcur names 0 _ Hnm Hw)|].
    split; [exact (deref_created_cur ty nm fs cur Hcur)|exact Hdir].
Qed.

Lemma create_wf ty err nm fs fs' out :
  wf fs -> create ty err nm fs = Some (fs', out) -> wf fs'.
Proof.
  intros Hwf H. apply create_inv in H.
  destruct H as [(_ & -> & _)|(Hv & cur & Hcur & [(_ & -> & _)|(Hf & -> & _)])];
    auto using created_wf.
Qed.

Lemma create_total ty err nm fs :
  wf fs -> exists fs' out, create ty err nm fs = Some (fs', out).
Proof.
  intros Hwf. destruct (wf_cursor fs Hwf) as (_ & n & _ & _ & Hn & _).
  unfold create, nameExists, set_child, make_unique. rewrite Hn.
  destruct (negb (isValidName nm)); [eauto|].
  destruct (0 <? StdMap.count nm (children n))%nat; [eauto|].
  unfold deref. cbn [mem currentDirectory].
  rewrite nth_error_app1 by (eapply deref_lt; eassumption).
  unfold deref in Hn. rewrite Hn. eauto.
Qed.

(** ** Path splitting *)

Lemma read_until_valid delim ss part ss' :
  read_until delim ss = (part, ss') -> string_find delim part = None.
Proof.
  revert part ss'. induction ss as [|c ss IH]; simpl; intros part ss'.
  - now intros [= <- <-].
  - destruct (Ascii.eqb c delim) eqn:E; [now intros [= <- <-]|].
    destruct (read_until delim ss) as [p r]. intros [= <- <-].
    simpl. rewrite E. now rewrite (IH _ _ eq_refl).
Qed.

Lemma splitPath_loop_parts fuel ss :
  Forall (fun p => p <> "" /\ isValidName p = true) (splitPath_loop fuel ss).
Proof.
  revert ss. induction fuel as [|fuel IH]; intros ss; [constructor|].
  cbn [splitPath_loop]. unfold getline.
  destruct ss as [|c ss]; [constructor|].
  destruct (read_until "/" (String c ss)) as [part ss'] eqn:E.
  destruct (String.eqb_spec part "") as [->|Hne]; [apply IH|].
  constructor; [|apply IH].
  split; [exact Hne|]. unfold isValidName.
  now rewrite (read_until_valid _ _ _ _ E).
Qed.

Lemma read_until_length delim ss :
  String.length (snd (read_until delim ss)) <= String.length ss.
Proof.
  induction ss as [|c ss IH]; simpl; [lia|].
  destruct (Ascii.eqb c delim); simpl; [lia|].
  destruct (read_until delim ss). simpl in *. lia.
Qed.

(** The loop of [splitPath] is over once the stream is consumed: any fuel
    above the length of the stream gives the same segments. *)
Lemma splitPath_loop_fuel fuel1 : forall fuel2 ss,
  String.length ss < fuel1 -> String.length ss < fuel2 ->
  splitPath_loop fuel1 ss = splitPath_loop fuel2 ss.
Proof.
  induction fuel1 as [|fuel1 IH]; intros [|fuel2] ss H1 H2; try lia.
  cbn [splitPath_loop]. unfold getline.
  destruct ss as [|c ss]; [reflexivity|].
  pose proof (read_until_length "/" (String c ss)) as Hlen.
  destruct (read_until "/" (String c ss)) as [part ss'] eqn:E.
  assert (Hlt : String.length ss' <= String.length ss).
  { revert E. simpl. destruct (Ascii.eqb c "/").
    - intros [= _ <-]. lia.
    - pose proof (read_until_length "/" ss) as Hl.
      destruct (read_until "/" ss). intros [= _ <-]. exact Hl. }
  simpl in H1, H2.
  rewrite (IH fuel2 ss') by lia. reflexivity.
Qed.

Lemma splitPath_fuel fuel path :
  String.length path < fuel -> splitPath_loop fuel path = splitPath path.
Proof. intros H. apply splitPath_loop_fuel; [exact H|lia]. Qed.

Lemma splitPath_parts path :
  Forall (fun p => p <> "" /\ isValidName p = true) (splitPath path).
Proof. apply splitPath_loop_parts. Qed.

(** ** Navigation *)

Section Navigation.

Variable fs : FileSystem.
Hypothesis Hwf : wf fs.

Lemma navigable_root : navigable fs 0.
Proof.
  destruct (wf_root fs Hwf) as (_ & r & Hr & _ & Ht & _).
  exists [], r. repeat split; auto.
Qed.

Lemma navigable_parent t n p :
  navigable fs t -> deref fs t = Some n -> parent n = Some p ->
  navigable fs p.
Proof.
  intros (names & n' & Hseg & Hw & Hn & _) Ht Hp.
  destruct names as [|s names _] using List.rev_ind.
  - simpl in Hw. injection Hw as <-.
    destruct (wf_root fs Hwf) as (_ & r & Hr & _ & _ & Hpr). congruence.
  - apply walk_snoc in Hw. destruct Hw as (a & an & Hw & Ha & Hf).
    destruct (wf_children fs Hwf _ _ _ _ Ha (find_In _ _ _ Hf))
      as (cn & Hc & _ & Hcp).
    assert (p = a) by congruence. subst p.
    exists names, an. apply Forall_app in Hseg.
    repeat split; try tauto.
    eapply wf_has_child_dir; eassumption.
Qed.

Lemma navigable_child t n part c cn :
  navigable fs t -> deref fs t = Some n ->
  segment_ok part ->
  StdMap.find part (children n) = Some c ->
  deref fs c = Some cn -> type cn = DIRECTORY ->
  navigable fs c.
Proof.
  intros (names & n' & Hseg & Hw & _) Ht Hok Hf Hc Hty.
  exists (names ++ [part])%list, cn. repeat split; auto.
  - apply Forall_app. split; [assumption|]. now constructor.
  - apply walk_snoc; eauto.
Qed.

(** From a navigable directory, [navigateToPath] on segments produced by
    [splitPath] always returns, either [nullptr] or a navigable
    directory. *)
Lemma navigateToPath_navigable parts : forall start,
  Forall (fun p => p <> "" /\ isValidName p = true) parts ->
  navigable fs start ->
  exists r, navigateToPath fs parts start = Some r /\
    forall t, r = Some t -> navigable fs t.
Proof.
  induction parts as [|part rest IH]; intros start Hparts Hnav; simpl.
  - eexists. split; [reflexivity|]. now intros t [= <-].
  - inversion Hparts as [|? ? [Hne Hv] Hrest]; subst.
    pose proof Hnav as (_ & n & _ & _ & Hn & Hty).
    destruct (String.eqb_spec part "..") as [->|Hdd].
    { rewrite Hn. destruct (parent n) as [p|] eqn:Hp; [|now apply IH].
      apply IH; [assumption|]. eapply navigable_parent; eassumption. }
    destruct (String.eqb_spec part ".") as [->|Hd]; cbn [negb];
      [now apply IH|].
    rewrite Hn, Hty.
    destruct (0 <? StdMap.count part (children n))%nat eqn:Hcnt;
      [|eexists; split; [reflexivity|discriminate]].
    destruct (StdMap.find part (children n)) as [c|] eqn:Hf;
      [|rewrite count_find, Hf in Hcnt; discriminate].
    destruct (wf_children fs Hwf _ _ _ _ Hn (find_In _ _ _ Hf))
      as (cn & Hc & _).
    rewrite Hc. destruct (type cn) eqn:Hcty;
      [eexists; split; [reflexivity|discriminate]|].
    apply IH; [assumption|].
    eapply navigable_child; try eassumption. now repeat split.
Qed.

End Navigation.

Lemma walk_set_currentDirectory fs t names p :
  walk (set_currentDirectory fs t) names p = walk fs names p.
Proof.
  revert p. induction names as [|s names IH]; intros p; simpl; [reflexivity|].
  change (deref (set_currentDirectory fs t) p) with (deref fs p).
  destruct (deref fs p) as [n|]; [|reflexivity].
  destruct (StdMap.find s (children n)); auto.
Qed.

Lemma wf_set_currentDirectory fs t :
  wf fs -> navigable fs t -> wf (set_currentDirectory fs t).
Proof.
  intros [H1 H2 H3 H4 H5 _] (names & n & Hseg & Hw & Hn & Ht).
  constructor; [exact H1|exact H2|exact H3|exact H4|exact H5|].
  exists names, n. rewrite walk_set_currentDirectory. now repeat split.
Qed.

Lemma cd_inv path fs fs' out :
  wf fs -> cd path fs = Some (fs', out) ->
  (fs' = fs /\ out = [err_path path]) \/
  (exists t, fs' = set_currentDirectory fs t /\ navigable fs t /\ out = []).
Proof.
  intros Hwf. unfold cd.
  destruct (path =? "/").
  - intros [= <- <-]. right. exists (root fs).
    destruct (wf_root fs Hwf) as (-> & _). auto using navigable_root.
  - set (start := if starts_with_slash path then root fs else currentDirectory fs).
    assert (Hstart : navigable fs start).
    { unfold start. destruct (starts_with_slash path).
      - destruct (wf_root fs Hwf) as (-> & _). now apply navigable_root.
      - apply (wf_cursor fs Hwf). }
    destruct (navigateToPath_navigable fs Hwf _ _ (splitPath_parts path) Hstart)
      as (r & -> & Hr).
    destruct r as [t|]; intros [= <- <-]; [right|left]; eauto.
Qed.

Lemma cd_total path fs :
  wf fs -> exists fs' out, cd path fs = Some (fs', out).
Proof.
  intros Hwf. unfold cd. destruct (path =? "/"); [eauto|].
  set (start := if starts_with_slash path then root fs else currentDirectory fs).
  assert (Hstart : navigable fs start).
  { unfold start. destruct (starts_with_slash path).
    - destruct (wf_root fs Hwf) as (-> & _). now apply navigable_root.
    - apply (wf_cursor fs Hwf). }
  destruct (navigateToPath_navigable fs Hwf _ _ (splitPath_parts path) Hstart)
    as (r & -> & _).
  destruct r; eauto.
Qed.

Lemma cd_wf path fs fs' out :
  wf fs -> cd path fs = Some (fs', out) -> wf fs'.
Proof.
  intros Hwf H. destruct (cd_inv _ _ _ _ Hwf H) as [[-> _]|(t & -> & Hn & _)];
    auto using wf_set_currentDirectory.
Qed.

Lemma FileSystem_new_wf : wf FileSystem_new.
Proof.
  constructor.
  - split; [reflexivity|]. eexists. split; [reflexivity|]. now repeat split.
  - intros [|[|i]] n; simpl; try discriminate. easy.
  - intros [|[|i]] n k c; simpl; try discriminate. now intros [= <-].
  - intros [|[|i]] n; simpl; try discriminate. now intros [= <-].
  - intros [|[|i]] n; simpl; try discriminate. intros [= <-]. constructor.
  - exists [], (mkNode "/" DIRECTORY None []). now repeat split.
Qed.

Lemma reachable_wf fs : reachable fs -> wf fs.
Proof.
  induction 1; eauto using FileSystem_new_wf, create_wf, cd_wf.
Qed.

(** ** Strings and paths *)

Lemma append_assoc (a b c : string) : (a ++ b) ++ c = a ++ (b ++ c).
Proof. induction a as [|x a IH]; simpl; [reflexivity|now rewrite IH]. Qed.

Lemma append_empty_r (a : string) : a ++ "" = a.
Proof. induction a as [|x a IH]; simpl; [reflexivity|now rewrite IH]. Qed.

Lemma length_append_ge (a b : string) :
  String.length b <= String.length (a ++ b).
Proof. induction a; simpl; lia. Qed.

Lemma join_snoc names s : join (names ++ [s]) = join names ++ "/" ++ s.
Proof.
  induction names as [|x names IH]; simpl.
  - now rewrite append_empty_r.
  - now rewrite IH, append_assoc.
Qed.

Lemma abs_path_snoc names s :
  names <> [] -> abs_path (names ++ [s]) = abs_path names ++ "/" ++ s.
Proof.
  intros Hne. unfold abs_path.
  destruct names as [|x names]; [contradiction|].
  rewrite join_snoc. reflexivity.
Qed.

Lemma abs_path_single s : abs_path [s] = "/" ++ s.
Proof. simpl. now rewrite append_empty_r. Qed.

Lemma join_length names : List.length names <= String.length (join names).
Proof.
  induction names as [|x names IH]; simpl; [lia|].
  pose proof (length_append_ge x (join names)). lia.
Qed.

Section Paths.

Variable fs : FileSystem.
Hypothesis Hwf : wf fs.

(** [getPath] yields the absolute path of whatever node it is given. *)
Lemma getPath_rec_walk names : forall fuel a,
  walk fs names 0 = Some a -> List.length names < fuel ->
  getPath_rec fuel fs a = Some (abs_path names).
Proof.
  destruct (wf_root fs Hwf) as (Hroot & _).
  induction names as [|s names IH] using List.rev_ind; intros fuel a Hw Hfuel.
  - simpl in Hw. injection Hw as <-.
    destruct fuel; [simpl in Hfuel; lia|]. simpl. now rewrite Hroot.
  - rewrite length_app in Hfuel. simpl in Hfuel.
    destruct fuel as [|fuel]; [lia|].
    apply walk_snoc in Hw. destruct Hw as (q & qn & Hw & Hq & Hf).
    destruct (wf_children fs Hwf _ _ _ _ Hq (find_In _ _ _ Hf))
      as (an & Ha & Hname & Hpar).
    pose proof (wf_child_lt fs Hwf _ _ _ _ Hq (find_In _ _ _ Hf)) as Hlt.
    cbn [getPath_rec]. rewrite Hroot.
    destruct (Nat.eqb_spec a 0) as [->|_]; [lia|].
    rewrite Ha. unfold parent_is. rewrite Hpar, Hname.
    destruct (Nat.eqb_spec q 0) as [->|Hq0].
    + pose proof (walk_le fs Hwf _ _ _ Hw) as Hle.
      destruct names; [|simpl in Hle; lia].
      change ([] ++ [s])%list with [s]. now rewrite abs_path_single.
    + rewrite (IH fuel q Hw) by lia.
      rewrite abs_path_snoc; [reflexivity|].
      intros ->. simpl in Hw. congruence.
Qed.

Lemma getPath_walk names a :
  walk fs names 0 = Some a -> getPath fs a = Some (abs_path names).
Proof.
  intros Hw. apply getPath_rec_walk; [assumption|].
  destruct (wf_root fs Hwf) as (_ & r & Hr & _).
  destruct (walk_deref fs Hwf _ _ _ _ Hr Hw) as (an & Ha).
  apply deref_lt in Ha. apply (walk_le fs Hwf) in Hw. lia.
Qed.

Lemma getPath_total a n :
  deref fs a = Some n -> exists p, getPath fs a = Some p.
Proof.
  intros Ha. destruct (walk_total fs Hwf _ _ Ha) as (names & Hw).
  eauto using getPath_walk.
Qed.

End Paths.

(** [read_until] stops at the first separator. *)
Lemma read_until_segment s r :
  string_find "/"%char s = None ->
  read_until "/"%char (s ++ String "/"%char r) = (s, r).
Proof.
  induction s as [|c s IH]; simpl; [reflexivity|].
  destruct (Ascii.eqb c "/"); [discriminate|].
  destruct (string_find "/" s); [discriminate|].
  intros _. now rewrite IH.
Qed.

Lemma read_until_last s :
  string_find "/"%char s = None -> read_until "/"%char s = (s, "").
Proof.
  induction s as [|c s IH]; simpl; [reflexivity|].
  destruct (Ascii.eqb c "/"); [discriminate|].
  destruct (string_find "/" s); [discriminate|].
  intros _. now rewrite IH.
Qed.

Lemma splitPath_loop_empty fuel : splitPath_loop fuel "" = [].
Proof. now destruct fuel. Qed.

Lemma splitPath_loop_join rest : forall s fuel,
  Forall (fun p => p <> "" /\ isValidName p = true) (s :: rest) ->
  List.length rest < fuel ->
  splitPath_loop fuel (s ++ join rest) = s :: rest.
Proof.
  induction rest as [|s2 rest IH]; intros s fuel Hall Hfuel;
    inversion Hall as [|? ? [Hne Hv] Hrest]; subst;
    (destruct fuel as [|fuel]; [simpl in Hfuel; lia|]);
    unfold isValidName in Hv;
    destruct (string_find "/" s) eqn:Hfind; try discriminate;
    cbn [splitPath_loop]; unfold getline.
  - simpl join. rewrite append_empty_r.
    destruct s as [|c s]; [contradiction|].
    rewrite (read_until_last _ Hfind).
    rewrite (proj2 (String.eqb_neq _ _) Hne).
    now rewrite splitPath_loop_empty.
  - simpl join.
    destruct (s ++ String "/" (s2 ++ join rest)) as [|c x] eqn:E.
    { destruct s; [contradiction|discriminate]. }
    rewrite <- E. change (String "/" (s2 ++ join rest)) with
      (String "/" (s2 ++ join rest)).
    rewrite (read_until_segment _ _ Hfind).
    rewrite (proj2 (String.eqb_neq _ _) Hne).
    f_equal. apply IH; [assumption|]. simpl in Hfuel. lia.
Qed.

Lemma splitPath_join names :
  Forall (fun p => p <> "" /\ isValidName p = true) names ->
  splitPath (join names) = names.
Proof.
  intros Hall. destruct names as [|s rest]; [reflexivity|].
  unfold splitPath. simpl join. cbn [splitPath_loop getline].
  simpl read_until. cbn [String.eqb].
  apply splitPath_loop_join; [assumption|].
  simpl. pose proof (length_append_ge s (join rest)).
  pose proof (join_length rest). lia.
Qed.

(** ** Name validation *)

Lemma isValidName_spec nm : isValidName nm = false <-> contains_separator nm.
Proof.
  unfold isValidName, contains_separator.
  induction nm as [|c nm IH]; simpl.
  - split; [discriminate|contradiction].
  - destruct (Ascii.eqb_spec c "/") as [->|Hne].
    + split; auto.
    + destruct (string_find "/" nm).
      * split; [right; now apply IH|reflexivity].
      * split; [discriminate|]. intros [H|H]; [contradiction|now apply IH].
Qed.

Lemma err_exists_not_name_error nm :
  err_exists nm <> err_dir_name /\ err_exists nm <> err_file_name.
Proof. split; discriminate. Qed.

Lemma create_invalid_iff ty err nm fs :
  err = err_dir_name \/ err = err_file_name ->
  ((exists fs', create ty err nm fs = Some (fs', [err])) <->
   contains_separator nm) /\
  (forall fs', create ty err nm fs = Some (fs', [err]) -> fs' = fs).
Proof.
  intros Herr. rewrite <- isValidName_spec. split; [split|].
  - intros (fs' & H). apply create_inv in H.
    destruct H as [(Hv & _)|(_ & cur & _ & [(_ & _ & [= H])|(_ & _ & [=])])];
      [assumption|].
    exfalso. destruct (err_exists_not_name_error nm). destruct Herr; congruence.
  - intros Hv. exists fs. unfold create. now rewrite Hv.
  - intros fs' H. apply create_inv in H.
    destruct H as [(_ & -> & _)|(_ & cur & _ & [(_ & -> & _)|(_ & _ & [=])])];
      reflexivity.
Qed.

(** C1 (as amended): [mkdir] and [touch] report the invalid-name error
    exactly when the name contains the separator ['/'], and such a call
    leaves the whole state unchanged.  Emptiness of the name is not part of
    the test. *)
Theorem C1_invalid_name_iff_separator (fs : FileSystem) (nm : string) :
  ((exists fs', mkdir nm fs = Some (fs', [err_dir_name])) <->
     contains_separator nm) /\
  ((exists fs', touch nm fs = Some (fs', [err_file_name])) <->
     contains_separator nm) /\
  (forall fs', mkdir nm fs = Some (fs', [err_dir_name]) -> fs' = fs) /\
  (forall fs', touch nm fs = Some (fs', [err_file_name]) -> fs' = fs).
Proof.
  unfold mkdir, touch.
  destruct (create_invalid_iff DIRECTORY err_dir_name nm fs) as [H1 H2];
    [now left|].
  destruct (create_invalid_iff FILE err_file_name nm fs) as [H3 H4];
    [now right|].
  auto.
Qed.

(** Scenario 6: [mkdir("a/b")] is refused and creates nothing. *)
Lemma C1_witness :
  exists fs',
    mkdir "a/b" FileSystem_new = Some (fs', [err_dir_name]) /\
    fs' = FileSystem_new.
Proof.
  destruct (C1_invalid_name_iff_separator FileSystem_new "a/b")
    as ((_ & H) & _ & Hsame & _).
  destruct H as (fs' & Hmk); [right; now left|].
  exists fs'. split; [exact Hmk|exact (Hsame _ Hmk)].
Defined.

(** C1 fails as stated: on a fresh file system [mkdir("")] and [touch("")]
    report no error and insert a child whose name is the empty string. *)
Lemma C1_empty_name_is_accepted :
  mkdir "" FileSystem_new =
    Some (mkFileSystem
            [mkNode "/" DIRECTORY None [("", 1)];
             mkNode "" DIRECTORY (Some 0) []] 0 0, []) /\
  touch "" FileSystem_new =
    Some (mkFileSystem
            [mkNode "/" DIRECTORY None [("", 1)];
             mkNode "" FILE (Some 0) []] 0 0, []) /\
  ~ (("" = "" \/ contains_separator "") ->
     mkdir "" FileSystem_new = Some (FileSystem_new, [err_dir_name])).
Proof.
  split; [reflexivity|]. split; [reflexivity|].
  intros H. specialize (H (or_introl eq_refl)). discriminate H.
Qed.

(** ** Changing directory *)

Lemma navigateToPath_app fs pre post : forall start,
  navigateToPath fs (pre ++ post) start =
  match navigateToPath fs pre start with
  | Some (Some t) => navigateToPath fs post t
  | r => r
  end.
Proof.
  induction pre as [|part pre IH]; intros start; simpl; [reflexivity|].
  destruct (part =? "..").
  { destruct (deref fs start) as [t|]; [|reflexivity].
    destruct (parent t); apply IH. }
  destruct (part =? "."); cbn [negb]; [apply IH|].
  destruct (deref fs start) as [t|]; [|reflexivity].
  destruct (type t); [reflexivity|].
  destruct (0 <? StdMap.count part (children t))%nat; [|reflexivity].
  destruct (StdMap.find part (children t)) as [c|]; [|reflexivity].
  destruct (deref fs c) as [cn|]; [|reflexivity].
  destruct (type cn); [reflexivity|apply IH].
Qed.

(** A segment that names no child, or a child that is a file, makes
    [navigateToPath] return [nullptr] whatever follows. *)
Lemma navigateToPath_unresolved fs s post t tn :
  deref fs t = Some tn ->
  s <> ".." -> s <> "." ->
  (StdMap.find s (children tn) = None \/
   exists c cn, StdMap.find s (children tn) = Some c /\
     deref fs c = Some cn /\ type cn = FILE) ->
  navigateToPath fs (s :: post) t = Some None.
Proof.
  intros Ht Hdd Hd Hfail. simpl.
  rewrite (proj2 (String.eqb_neq _ _) Hdd), (proj2 (String.eqb_neq _ _) Hd).
  cbn [negb]. rewrite Ht. destruct (type tn); [reflexivity|].
  rewrite count_find.
  destruct Hfail as [->|(c & cn & -> & -> & ->)]; reflexivity.
Qed.

Lemma set_currentDirectory_same fs :
  set_currentDirectory fs (currentDirectory fs) = fs.
Proof. now destruct fs. Qed.

(** C3: when some segment of the path does not resolve -- the node reached
    so far has no child of that name, or the child is a file -- [cd] prints
    the invalid-path error and the state, cursor included, is exactly what it
    was.  In particular, right after a successful [touch("a.txt")],
    [cd("a.txt")] fails in this way. *)
Theorem C3_cd_unresolved_segment_fails_unchanged (fs : FileSystem) :
  reachable fs ->
  (forall path pre s post t tn,
     splitPath path = (pre ++ s :: post)%list ->
     navigateToPath fs pre (cd_start path fs) = Some (Some t) ->
     deref fs t = Some tn ->
     s <> ".." -> s <> "." ->
     (StdMap.find s (children tn) = None \/
      exists c cn, StdMap.find s (children tn) = Some c /\
        deref fs c = Some cn /\ type cn = FILE) ->
     cd path fs = Some (fs, [err_path path])) /\
  (forall fs1,
     touch "a.txt" fs = Some (fs1, []) ->
     cd "a.txt" fs1 = Some (fs1, [err_path "a.txt"])).
Proof.
  intros Hreach. split.
  - intros path pre s post t tn Hsplit Hpre Ht Hdd Hd Hfail.
    unfold cd. destruct (String.eqb_spec path "/") as [->|_];
      [destruct pre; discriminate|].
    fold (cd_start path fs). rewrite Hsplit, navigateToPath_app, Hpre.
    now rewrite (navigateToPath_unresolved fs s post t tn).
  - intros fs1 Htouch. apply reachable_wf in Hreach.
    apply create_inv in Htouch.
    destruct Htouch as [([=] & _)|(_ & cur & Hcur & [(_ & _ & [=])|(Hf & -> & _)])].
    assert (Hty : type cur = DIRECTORY).
    { destruct (wf_cursor fs Hreach) as (_ & n & _ & _ & Hn & Ht). congruence. }
    unfold cd. change (splitPath "a.txt") with ["a.txt"]. cbn [String.eqb Ascii.eqb Bool.eqb starts_with_slash].
    cbn [currentDirectory created].
    rewrite (navigateToPath_unresolved _ "a.txt" [] (currentDirectory fs) _
               (deref_created_cur FILE "a.txt" fs cur Hcur));
      try discriminate; [reflexivity|].
    right. eexists _, _. cbn [children]. rewrite find_insert_same.
    split; [reflexivity|].
    split; [exact (deref_created_fresh FILE "a.txt" fs cur Hcur)|reflexivity].
Qed.

Lemma sample_reachable : reachable sample.
Proof.
  eapply reach_cd with (path := "/home/user").
  eapply reach_touch with (nm := "report.docx").
  eapply reach_cd with (path := "Documents").
  eapply reach_touch with (nm := "profile.txt").
  eapply reach_mkdir with (nm := "Downloads").
  eapply reach_mkdir with (nm := "Documents").
  eapply reach_cd with (path := "user").
  eapply reach_touch with (nm := "readme.txt").
  eapply reach_mkdir with (nm := "user").
  eapply reach_cd with (path := "home").
  eapply reach_mkdir with (nm := "home").
  apply reach_new.
  all: lazy; reflexivity.
Defined.

(** C3 at work: in the sample tree [cd("Documents/report.docx/x")] stops at
    the file [report.docx], and [cd("a.txt")] fails after [touch("a.txt")]. *)
Lemma C3_witness :
  cd "Documents/report.docx/x" sample =
    Some (sample, [err_path "Documents/report.docx/x"]) /\
  (exists fs1, touch "a.txt" sample = Some (fs1, []) /\
     cd "a.txt" fs1 = Some (fs1, [err_path "a.txt"])).
Proof.
  destruct (C3_cd_unresolved_segment_fails_unchanged sample sample_reachable)
    as [H1 H2].
  split; [|eexists; split; [reflexivity|apply H2; reflexivity]].
  apply (H1 "Documents/report.docx/x" ["Documents"] "report.docx" ["x"] 4
           (mkNode "Documents" DIRECTORY (Some 2) [("report.docx", 7)]));
    try reflexivity; try discriminate.
  right. exists 7, (mkNode "report.docx" FILE (Some 4) []).
  repeat split; reflexivity.
Defined.

Section NavigationToNode.

Variable fs : FileSystem.
Hypothesis Hwf : wf fs.

(** Walking down through directories along ordinary segments is what
    [navigateToPath] does. *)
Lemma navigateToPath_walk names : forall a t tn,
  Forall segment_ok names ->
  walk fs names a = Some t ->
  deref fs t = Some tn -> type tn = DIRECTORY ->
  navigateToPath fs names a = Some (Some t).
Proof.
  induction names as [|s rest IH]; intros a t tn Hseg Hw Ht Hty; simpl in *.
  - congruence.
  - inversion Hseg as [|? ? (Hne & Hv & Hd & Hdd) Hrest]; subst.
    rewrite (proj2 (String.eqb_neq _ _) Hdd), (proj2 (String.eqb_neq _ _) Hd).
    cbn [negb].
    destruct (deref fs a) as [n|] eqn:Hn; [|discriminate].
    destruct (StdMap.find s (children n)) as [c|] eqn:Hf; [|discriminate].
    rewrite (wf_has_child_dir fs Hwf _ _ _ _ Hn Hf).
    rewrite (find_count_pos _ _ _ Hf).
    destruct (wf_children fs Hwf _ _ _ _ Hn (find_In _ _ _ Hf))
      as (cn & Hc & _).
    rewrite Hc.
    assert (Hcty : type cn = DIRECTORY).
    { destruct rest as [|s' rest']; simpl in Hw.
      - congruence.
      - rewrite Hc in Hw.
        destruct (StdMap.find s' (children cn)) eqn:Hf'; [|discriminate].
        eapply wf_has_child_dir; eassumption. }
    rewrite Hcty. eapply IH; eassumption.
Qed.

Lemma join_not_root names :
  Forall segment_ok names -> names <> [] ->
  (join names =? "/") = false /\ starts_with_slash (join names) = true.
Proof.
  intros Hseg Hne. destruct names as [|s rest]; [contradiction|].
  inversion Hseg as [|? ? (Hs & _) _]; subst.
  destruct s; [contradiction|]. split; reflexivity.
Qed.

(** The node a navigable address refers to is called neither ["."] nor
    [".."]: no path can lead into such a child. *)
Lemma navigable_name t n :
  navigable fs t -> deref fs t = Some n ->
  name n <> "." /\ name n <> "..".
Proof.
  intros (names & n' & Hseg & Hw & Hn & _) Ht.
  destruct names as [|s names _] using List.rev_ind.
  - simpl in Hw. injection Hw as <-.
    destruct (wf_root fs Hwf) as (_ & r & Hr & Hname & _).
    assert (n = r) by congruence. subst. rewrite Hname. split; discriminate.
  - apply walk_snoc in Hw. destruct Hw as (a & an & _ & Ha & Hf).
    destruct (wf_children fs Hwf _ _ _ _ Ha (find_In _ _ _ Hf))
      as (cn & Hc & Hcn & _).
    assert (n = cn) by congruence. subst cn. rewrite Hcn.
    apply Forall_app in Hseg. destruct Hseg as [_ Hs].
    inversion Hs as [|? ? (_ & _ & Hd & Hdd) _]; subst. now split.
Qed.

End NavigationToNode.

(** C7: a [".."] segment met at the root is skipped, resolution carrying on
    from the root; so with the cursor at the root [cd("..")] succeeds without
    output and leaves the state as it was. *)
Theorem C7_dotdot_at_root_clamps (fs : FileSystem) :
  reachable fs ->
  (forall rest,
     navigateToPath fs (".." :: rest) (root fs) =
     navigateToPath fs rest (root fs)) /\
  (currentDirectory fs = root fs -> cd ".." fs = Some (fs, [])).
Proof.
  intros Hreach. apply reachable_wf in Hreach.
  destruct (wf_root fs Hreach) as (Hroot & r & Hr & _ & _ & Hpar).
  assert (Hnav : forall rest,
    navigateToPath fs (".." :: rest) (root fs) =
    navigateToPath fs rest (root fs)).
  { intros rest. simpl. now rewrite Hroot, Hr, Hpar. }
  split; [exact Hnav|].
  intros Hcur. unfold cd. change (splitPath "..") with [".."].
  cbn [String.eqb Ascii.eqb Bool.eqb starts_with_slash].
  rewrite Hcur, Hnav. simpl. rewrite <- Hcur.
  now rewrite set_currentDirectory_same.
Qed.

Lemma C7_witness :
  navigateToPath FileSystem_new [".."; ".."] (root FileSystem_new) =
    Some (Some 0) /\
  cd ".." FileSystem_new = Some (FileSystem_new, []).
Proof.
  destruct (C7_dotdot_at_root_clamps FileSystem_new reach_new) as [H1 H2].
  split; [rewrite !H1; reflexivity|apply H2; reflexivity].
Defined.

(** C8: in every reachable state [getPath] of the cursor returns a path, and
    [cd] to that path succeeds without output and leaves the state, hence the
    cursor, unchanged. *)
Theorem C8_cd_to_current_path_is_identity (fs : FileSystem) :
  reachable fs ->
  exists p,
    getPath fs (currentDirectory fs) = Some p /\
    cd p fs = Some (fs, []).
Proof.
  intros Hreach. apply reachable_wf in Hreach.
  destruct (wf_root fs Hreach) as (Hroot & _).
  destruct (wf_cursor fs Hreach) as (names & n & Hseg & Hw & Hn & Hty).
  exists (abs_path names). split; [now apply getPath_walk|].
  unfold cd. destruct names as [|s rest].
  - simpl in Hw. injection Hw as Hw. simpl.
    rewrite Hroot, Hw. now rewrite set_currentDirectory_same.
  - cbv beta iota delta [abs_path].
    destruct (join_not_root (s :: rest) Hseg) as [-> ->]; [discriminate|].
    rewrite splitPath_join.
    + rewrite Hroot.
      rewrite (navigateToPath_walk fs Hreach _ _ _ _ Hseg Hw Hn Hty).
      now rewrite set_currentDirectory_same.
    + eapply Forall_impl; [|exact Hseg]. intros a (? & ? & _). now split.
Qed.

Lemma C8_witness :
  (exists p,
     getPath sample (currentDirectory sample) = Some p /\
     cd p sample = Some (sample, [])) /\
  getPath sample (currentDirectory sample) = Some "/home/user".
Proof.
  split; [|reflexivity].
  exact (C8_cd_to_current_path_is_identity sample sample_reachable).
Defined.

(** ** The current path *)

Lemma ends_with_append c a b :
  b <> "" -> ends_with c (a ++ b) = ends_with c b.
Proof.
  intros Hb. induction a as [|x a IH]; [reflexivity|].
  cbn [append ends_with]. destruct (a ++ b) eqn:E; [|exact IH].
  destruct a; simpl in E; [contradiction|discriminate].
Qed.

Lemma ends_with_no_occurrence c s :
  string_find c s = None -> ends_with c s = false.
Proof.
  induction s as [|x s IH]; [reflexivity|]. simpl.
  destruct (Ascii.eqb x c); [discriminate|].
  destruct (string_find c s); [discriminate|]. intros _.
  destruct s; [reflexivity|now apply IH].
Qed.

Lemma join_no_trailing_separator names :
  Forall segment_ok names -> names <> [] ->
  ends_with "/" (join names) = false.
Proof.
  intros Hseg Hne. destruct names as [|s names _] using List.rev_ind;
    [contradiction|].
  apply Forall_app in Hseg. destruct Hseg as [_ Hs].
  inversion Hs as [|? ? (Hs0 & Hv & _) _]; subst.
  rewrite join_snoc. rewrite ends_with_append by discriminate.
  change ("/" ++ s) with (String "/" s). destruct s; [contradiction|].
  change (ends_with "/" (String a s) = false). apply ends_with_no_occurrence.
  unfold isValidName in Hv. now destruct (string_find "/" (String a s)).
Qed.

(** C4: in every reachable state the cursor is reached from the root by a
    chain of child names, each the name of the node it leads to, and
    [getPath] of the cursor (what [pwd] prints) is ["/"] when the cursor is
    the root and otherwise the concatenation of ["/"] and each of these
    names in turn, which does not end in a separator.  On a fresh tree,
    [mkdir("home")] then [cd("home")] gives the path ["/home"]. *)
Theorem C4_current_path_is_absolute_path (fs : FileSystem) :
  reachable fs ->
  (exists names,
     walk fs names (root fs) = Some (currentDirectory fs) /\
     (forall pre s post, names = (pre ++ s :: post)%list ->
        exists a n, walk fs (pre ++ [s]) (root fs) = Some a /\
          deref fs a = Some n /\ name n = s) /\
     getPath fs (currentDirectory fs) = Some (abs_path names) /\
     pwd fs = Some [abs_path names] /\
     (currentDirectory fs = root fs -> abs_path names = "/") /\
     (currentDirectory fs <> root fs ->
        abs_path names = join names /\ names <> [] /\
        ends_with "/" (abs_path names) = false)) /\
  (exists fs1 fs2,
     mkdir "home" FileSystem_new = Some (fs1, []) /\
     cd "home" fs1 = Some (fs2, []) /\
     pwd fs2 = Some ["/home"]).
Proof.
  intros Hreach. apply reachable_wf in Hreach.
  split; [|eexists _, _; repeat split; reflexivity].
  destruct (wf_root fs Hreach) as (Hroot & _).
  destruct (wf_cursor fs Hreach) as (names & n & Hseg & Hw & Hn & Hty).
  pose proof (getPath_walk fs Hreach _ _ Hw) as Hpath.
  exists names. rewrite Hroot. repeat split; auto.
  - intros pre s post ->.
    replace (pre ++ s :: post)%list with ((pre ++ [s]) ++ post)%list in Hw
      by now rewrite <- app_assoc.
    rewrite walk_app in Hw.
    destruct (walk fs (pre ++ [s]) 0) as [a|] eqn:Ha; [|discriminate].
    apply walk_snoc in Ha. destruct Ha as (q & qn & Hq & Hqn & Hf).
    destruct (wf_children fs Hreach _ _ _ _ Hqn (find_In _ _ _ Hf))
      as (cn & Hc & Hcn & _).
    eauto.
  - unfold pwd. now rewrite Hpath.
  - intros Hcur. rewrite Hcur in Hw.
    apply (walk_le fs Hreach) in Hw. destruct names; [reflexivity|].
    simpl in Hw. lia.
  - destruct names; [|reflexivity]. simpl in Hw. congruence.
  - intros ->. simpl in Hw. congruence.
  - destruct names as [|s rest]; [simpl in Hw; congruence|].
    now apply join_no_trailing_separator.
Qed.

Lemma C4_witness :
  (exists names,
     walk sample names (root sample) = Some (currentDirectory sample) /\
     (forall pre s post, names = (pre ++ s :: post)%list ->
        exists a n, walk sample (pre ++ [s]) (root sample) = Some a /\
          deref sample a = Some n /\ name n = s) /\
     getPath sample (currentDirectory sample) = Some (abs_path names) /\
     pwd sample = Some [abs_path names] /\
     (currentDirectory sample = root sample -> abs_path names = "/") /\
     (currentDirectory sample <> root sample ->
        abs_path names = join names /\ names <> [] /\
        ends_with "/" (abs_path names) = false)) /\
  pwd sample = Some ["/home/user"].
Proof.
  split; [|reflexivity].
  exact (proj1 (C4_current_path_is_absolute_path sample sample_reachable)).
Defined.

(** ** Children named [.] or [..] *)

Lemma cd_mem path fs fs' out :
  cd path fs = Some (fs', out) -> mem fs' = mem fs /\ root fs' = root fs.
Proof.
  unfold cd. destruct (path =? "/"); [now intros [= <- <-]|].
  destruct (navigateToPath _ _ _) as [[t|]|]; try discriminate;
    now intros [= <- <-].
Qed.

Lemma special_child_unreachable nm fs cur :
  wf fs ->
  nm = "." \/ nm = ".." ->
  deref fs (currentDirectory fs) = Some cur ->
  StdMap.find nm (children cur) = None ->
  let fs1 := created DIRECTORY nm fs cur in
  let c := List.length (mem fs) in
  mkdir nm fs = Some (fs1, []) /\
  wf fs1 /\
  currentDirectory fs1 = currentDirectory fs /\
  (exists cur1, deref fs1 (currentDirectory fs1) = Some cur1 /\
     parent cur1 = parent cur /\
     StdMap.find nm (children cur1) = Some c) /\
  deref fs1 c = Some (mkNode nm DIRECTORY (Some (currentDirectory fs)) []) /\
  (forall path fs2 out,
     cd path fs1 = Some (fs2, out) -> currentDirectory fs2 <> c).
Proof.
  intros Hwf Hnm Hcur Hf fs1 c.
  assert (Hv : isValidName nm = true) by (destruct Hnm; subst; reflexivity).
  assert (Hwf1 : wf fs1) by now apply created_wf.
  pose proof (deref_created_fresh DIRECTORY nm fs cur Hcur) as Hfresh.
  pose proof (deref_created_cur DIRECTORY nm fs cur Hcur) as Hcur1.
  split; [|split; [exact Hwf1|split; [reflexivity|split; [|split;
    [exact Hfresh|]]]]].
  - unfold mkdir, create, nameExists, make_unique, set_child.
    rewrite Hv, Hcur, count_find, Hf. cbn [negb Nat.ltb Nat.leb].
    unfold deref at 1. cbn [mem currentDirectory].
    rewrite nth_error_app1 by (eapply deref_lt; eassumption).
    unfold deref in Hcur. now rewrite Hcur.
  - eexists. split; [exact Hcur1|]. split; [reflexivity|].
    apply find_insert_same.
  - intros path fs2 out Hcd Heq.
    pose proof (cd_wf _ _ _ _ Hwf1 Hcd) as Hwf2.
    destruct (cd_mem _ _ _ _ Hcd) as (Hmem & _).
    assert (Hd : deref fs2 (currentDirectory fs2) =
                 Some (mkNode nm DIRECTORY (Some (currentDirectory fs)) [])).
    { rewrite Heq. unfold deref. rewrite Hmem. exact Hfresh. }
    destruct (navigable_name fs2 Hwf2 _ _ (wf_cursor fs2 Hwf2) Hd) as [H1 H2].
    simpl in H1, H2. destruct Hnm; contradiction.
Qed.

Lemma nameExists_false fs :
  wf fs -> forall nm, nameExists fs nm = Some false ->
  exists cur, deref fs (currentDirectory fs) = Some cur /\
    StdMap.find nm (children cur) = None.
Proof.
  intros Hwf nm. unfold nameExists.
  destruct (deref fs (currentDirectory fs)) as [cur|]; [|discriminate].
  intros [= H]. exists cur. split; [reflexivity|now apply count_zero_find].
Qed.

(** C10: when the cursor has no child called [".."], [mkdir("..")] succeeds
    and links a new directory node named [".."] under the cursor; yet
    [cd("..")] from there goes to the cursor's parent, or stays at the root,
    and no [cd] whatsoever puts the cursor on the new node.  The same holds
    for a child called ["."], where [cd(".")] leaves the cursor in place. *)
Theorem C10_dot_children_unreachable (fs : FileSystem) :
  reachable fs ->
  (nameExists fs ".." = Some false ->
   exists fs1 c cn fs2,
     mkdir ".." fs = Some (fs1, []) /\
     currentDirectory fs1 = currentDirectory fs /\
     (exists cur1, deref fs1 (currentDirectory fs1) = Some cur1 /\
        StdMap.find ".." (children cur1) = Some c) /\
     deref fs1 c = Some cn /\
     name cn = ".." /\ type cn = DIRECTORY /\
     parent cn = Some (currentDirectory fs) /\
     cd ".." fs1 = Some (fs2, []) /\
     ((exists cur p, deref fs (currentDirectory fs) = Some cur /\
         parent cur = Some p /\ currentDirectory fs2 = p) \/
      (currentDirectory fs = root fs /\ currentDirectory fs2 = root fs)) /\
     currentDirectory fs2 <> c /\
     (forall path fs' out,
        cd path fs1 = Some (fs', out) -> currentDirectory fs' <> c)) /\
  (nameExists fs "." = Some false ->
   exists fs1 c cn,
     mkdir "." fs = Some (fs1, []) /\
     currentDirectory fs1 = currentDirectory fs /\
     (exists cur1, deref fs1 (currentDirectory fs1) = Some cur1 /\
        StdMap.find "." (children cur1) = Some c) /\
     deref fs1 c = Some cn /\
     name cn = "." /\ type cn = DIRECTORY /\
     parent cn = Some (currentDirectory fs) /\
     cd "." fs1 = Some (fs1, []) /\
     currentDirectory fs1 <> c /\
     (forall path fs' out,
        cd path fs1 = Some (fs', out) -> currentDirectory fs' <> c)).
Proof.
  intros Hreach. apply reachable_wf in Hreach. split; intros Hex;
    destruct (nameExists_false fs Hreach _ Hex) as (cur & Hcur & Hf).
  - destruct (special_child_unreachable ".." fs cur Hreach (or_intror eq_refl)
                Hcur Hf) as (Hmk & Hwf1 & Hc1 & (cur1 & Hd1 & Hp1 & Hf1) & Hnew & Hnever).
    set (fs1 := created DIRECTORY ".." fs cur) in *.
    set (t := match parent cur with Some p => p | None => currentDirectory fs end).
    assert (Hcd : cd ".." fs1 = Some (set_currentDirectory fs1 t, [])).
    { unfold cd. change (splitPath "..") with [".."].
      cbn [String.eqb Ascii.eqb Bool.eqb starts_with_slash navigateToPath].
      rewrite Hd1, Hp1. unfold t. rewrite Hc1. now destruct (parent cur). }
    exists fs1, (List.length (mem fs)),
      (mkNode ".." DIRECTORY (Some (currentDirectory fs)) []),
      (set_currentDirectory fs1 t).
    repeat split; try eassumption; try reflexivity.
    + eauto.
    + unfold t. cbn [currentDirectory set_currentDirectory].
      destruct (parent cur) as [p|] eqn:Hp; [left; eauto|right].
      destruct (wf_root fs Hreach) as (-> & _).
      destruct (Nat.eq_dec (currentDirectory fs) 0) as [H0|H0]; [auto|].
      destruct (wf_parent fs Hreach _ _ Hcur H0) as (p & _ & Hp' & _).
      congruence.
    + exact (Hnever _ _ _ Hcd).
  - destruct (special_child_unreachable "." fs cur Hreach (or_introl eq_refl)
                Hcur Hf) as (Hmk & Hwf1 & Hc1 & (cur1 & Hd1 & Hp1 & Hf1) & Hnew & Hnever).
    set (fs1 := created DIRECTORY "." fs cur) in *.
    assert (Hcd : cd "." fs1 = Some (fs1, [])).
    { unfold cd. change (splitPath ".") with ["."].
      cbn [String.eqb Ascii.eqb Bool.eqb starts_with_slash navigateToPath negb].
      now rewrite set_currentDirectory_same. }
    exists fs1, (List.length (mem fs)),
      (mkNode "." DIRECTORY (Some (currentDirectory fs)) []).
    repeat split; try eassumption; try reflexivity.
    + eauto.
    + exact (Hnever _ _ _ Hcd).
Qed.

Lemma C10_witness :
  exists fs1 c fs2,
    mkdir ".." sample = Some (fs1, []) /\
    (exists cur1, deref fs1 (currentDirectory fs1) = Some cur1 /\
       StdMap.find ".." (children cur1) = Some c) /\
    cd ".." fs1 = Some (fs2, []) /\
    currentDirectory fs2 = 1 /\
    currentDirectory fs2 <> c /\
    (forall path fs' out,
       cd path fs1 = Some (fs', out) -> currentDirectory fs' <> c).
Proof.
  destruct (proj1 (C10_dot_children_unreachable sample sample_reachable)
              eq_refl)
    as (fs1 & c & cn & fs2 & Hmk & _ & Hch & _ & _ & _ & _ & Hcd & Hto & Hne & Hnever).
  exists fs1, c, fs2. repeat split; auto.
  destruct Hto as [(cur & p & Hcur & Hp & ->)|[[=] _]].
  injection Hcur as <-. now injection Hp.
Defined.

(** ** Listing *)

Lemma sorted_keys {V} (m : StdMap.t V) :
  StdMap.sorted m -> StronglySorted StdMap.key_lt (StdMap.keys m).
Proof.
  induction 1 as [|[k v] m Hs IH Hall]; simpl; constructor; [exact IH|].
  apply Forall_map. eapply Forall_impl; [|exact Hall]. now intros [k' v'].
Qed.

Lemma is_entry_keys fs it entries :
  Forall2 (is_entry fs) it entries -> map fst entries = StdMap.keys it.
Proof.
  induction 1 as [|kc e it entries [He _] _ IH]; simpl; congruence.
Qed.

Section Listing.

Variable fs : FileSystem.
Hypothesis Hwf : wf fs.

Lemma ls_loop_entries i n : deref fs i = Some n ->
  forall it, incl it (children n) ->
  exists entries,
    Forall2 (is_entry fs) it entries /\
    ls_loop fs it = Some (map render_entry entries).
Proof.
  intros Hi. induction it as [|[k c] it IH]; intros Hincl; simpl.
  - exists []. split; constructor.
  - destruct (wf_children fs Hwf _ _ k c Hi) as (cn & Hc & Hname & _);
      [apply Hincl; now left|].
    destruct IH as (entries & Hall & Hls);
      [intros x Hx; apply Hincl; now right|].
    rewrite Hc, Hls. exists ((k, type cn) :: entries).
    split; [|reflexivity].
    constructor; [|assumption]. split; [reflexivity|]. exists cn. auto.
Qed.

Lemma child_key_valid i n k c :
  deref fs i = Some n -> In (k, c) (children n) -> isValidName k = true.
Proof.
  intros Hi Hin.
  destruct (wf_children fs Hwf _ _ _ _ Hi Hin) as (cn & Hc & <- & _).
  pose proof (wf_child_lt fs Hwf _ _ _ _ Hi Hin) as Hlt.
  destruct (wf_parent fs Hwf _ _ Hc) as (_ & _ & _ & _ & _ & _ & Hv);
    [lia|exact Hv].
Qed.

End Listing.

(** C5: in every reachable state [ls] prints, without any error, one line
    per child of the cursor -- the child's name, with the [/] suffix exactly
    for directories -- in strictly ascending byte-lexicographic order of the
    names, so no name occurs twice; a cursor without children prints
    nothing. *)
Theorem C5_ls_sorted_unique (fs : FileSystem) :
  reachable fs ->
  exists cur entries,
    deref fs (currentDirectory fs) = Some cur /\
    Forall2 (is_entry fs) (children cur) entries /\
    ls fs = Some (map render_entry entries) /\
    StronglySorted StdMap.key_lt (map fst entries) /\
    NoDup (map fst entries) /\
    (children cur = [] -> ls fs = Some []).
Proof.
  intros Hreach. apply reachable_wf in Hreach.
  destruct (wf_cursor fs Hreach) as (_ & cur & _ & _ & Hcur & _).
  destruct (ls_loop_entries fs Hreach _ _ Hcur (children cur) (incl_refl _))
    as (entries & Hall & Hls).
  pose proof (wf_sorted fs Hreach _ _ Hcur) as Hsorted.
  exists cur, entries. unfold ls. rewrite Hcur, (is_entry_keys _ _ _ Hall).
  repeat split; auto using sorted_keys, sorted_keys_NoDup.
  now intros ->.
Qed.

Lemma C5_witness :
  exists cur entries,
    deref sample (currentDirectory sample) = Some cur /\
    Forall2 (is_entry sample) (children cur) entries /\
    ls sample = Some (map render_entry entries) /\
    StronglySorted StdMap.key_lt (map fst entries) /\
    NoDup (map fst entries) /\
    (children cur = [] -> ls sample = Some []) /\
    ls sample = Some ["Documents/"; "Downloads/"; "profile.txt"].
Proof.
  destruct (C5_ls_sorted_unique sample sample_reachable)
    as (cur & entries & H1 & H2 & H3 & H4 & H5 & H6).
  exists cur, entries. repeat split; auto.
Defined.

(** ** Name collisions *)

Lemma append_separator_inj (a b : string) : a ++ "/" = b ++ "/" -> a = b.
Proof.
  revert b. induction a as [|x a IH]; intros [|y b]; simpl; intros H.
  - reflexivity.
  - injection H as _ H. destruct b; discriminate.
  - injection H as _ H. destruct a; discriminate.
  - injection H as -> H. f_equal. now apply IH.
Qed.

Lemma append_separator_invalid (a : string) : isValidName (a ++ "/") = false.
Proof.
  unfold isValidName. induction a as [|x a IH]; simpl; [reflexivity|].
  destruct (Ascii.eqb x "/"); [reflexivity|].
  now destruct (string_find "/" (a ++ "/")).
Qed.

(** A line printed by [ls] stands for the name [nm] exactly when it is the
    line of an entry called [nm]. *)
Lemma render_entry_count (e : string * NodeType) (nm : string) :
  isValidName (fst e) = true -> isValidName nm = true ->
  (if string_dec (render_entry e) (nm ++ "/") then 1 else 0) +
  (if string_dec (render_entry e) nm then 1 else 0) =
  (if string_dec (fst e) nm then 1 else 0).
Proof.
  destruct e as [k ty]. unfold render_entry. simpl. intros Hk Hnm.
  destruct ty.
  - rewrite append_empty_r.
    destruct (string_dec k (nm ++ "/")) as [->|_].
    + now rewrite append_separator_invalid in Hk.
    + reflexivity.
  - destruct (string_dec (k ++ "/") nm) as [<-|_].
    + now rewrite append_separator_invalid in Hnm.
    + destruct (string_dec (k ++ "/") (nm ++ "/")) as [E|E];
        destruct (string_dec k nm) as [E'|E']; try reflexivity.
      * apply append_separator_inj in E. contradiction.
      * subst. contradiction.
Qed.

Lemma ls_lines_count (entries : list (string * NodeType)) (nm : string) :
  Forall (fun e => isValidName (fst e) = true) entries ->
  isValidName nm = true ->
  count_occ string_dec (map render_entry entries) (nm ++ "/") +
  count_occ string_dec (map render_entry entries) nm =
  count_occ string_dec (map fst entries) nm.
Proof.
  intros Hall Hnm. induction Hall as [|e entries He _ IH]; [reflexivity|].
  pose proof (render_entry_count e nm He Hnm) as H.
  cbn [map count_occ].
  destruct (string_dec (render_entry e) (nm ++ "/"));
    destruct (string_dec (render_entry e) nm);
    destruct (string_dec (fst e) nm); simpl in H; lia.
Qed.

Lemma create_exists ty err nm fs :
  wf fs -> nameExists fs nm = Some true ->
  create ty err nm fs = Some (fs, [err_exists nm]).
Proof.
  intros Hwf H. unfold create. rewrite H.
  unfold nameExists in H.
  destruct (deref fs (currentDirectory fs)) as [cur|] eqn:Hcur; [|discriminate].
  injection H as H. rewrite count_find in H.
  destruct (StdMap.find nm (children cur)) as [c|] eqn:Hf; [|discriminate].
  now rewrite (child_key_valid fs Hwf _ _ _ _ Hcur (find_In _ _ _ Hf)).
Qed.

(** C6: in every reachable state, if the cursor already has a child called
    [nm] then [mkdir(nm)] and [touch(nm)] print the already-exists error and
    change nothing at all.  In particular a second [mkdir("x")] fails in
    this way, and [ls] then prints exactly one line for the name [x]. *)
Theorem C6_create_never_overwrites (fs : FileSystem) :
  reachable fs ->
  (forall nm, nameExists fs nm = Some true ->
     mkdir nm fs = Some (fs, [err_exists nm]) /\
     touch nm fs = Some (fs, [err_exists nm])) /\
  (forall fs1 out1, mkdir "x" fs = Some (fs1, out1) ->
     mkdir "x" fs1 = Some (fs1, [err_exists "x"]) /\
     exists lines, ls fs1 = Some lines /\
       count_occ string_dec lines "x/" + count_occ string_dec lines "x" = 1).
Proof.
  intros Hreach. pose proof (reachable_wf _ Hreach) as Hwf. split.
  - intros nm H. unfold mkdir, touch. now rewrite !create_exists.
  - intros fs1 out1 Hmk.
    pose proof (reachable_wf _ (reach_mkdir _ _ _ _ Hreach Hmk)) as Hwf1.
    assert (Hex : exists cur1 c, deref fs1 (currentDirectory fs1) = Some cur1 /\
                    StdMap.find "x" (children cur1) = Some c).
    { apply create_inv in Hmk.
      destruct Hmk as [([=] & _)|(_ & cur & Hcur & [((c & Hc) & -> & _)|(Hf & -> & _)])].
      - eauto.
      - eexists _, _. split; [exact (deref_created_cur _ _ _ _ Hcur)|].
        apply find_insert_same. }
    destruct Hex as (cur1 & c & Hcur1 & Hf1). split.
    + apply create_exists; [assumption|]. unfold nameExists.
      now rewrite Hcur1, count_find, Hf1.
    + destruct (ls_loop_entries fs1 Hwf1 _ _ Hcur1 (children cur1) (incl_refl _))
        as (entries & Hall & Hls).
      exists (map render_entry entries). unfold ls. rewrite Hcur1.
      split; [exact Hls|].
      pose proof (is_entry_keys _ _ _ Hall) as Hkeys.
      change "x/" with ("x" ++ "/").
      rewrite ls_lines_count; [|apply Forall_forall|reflexivity].
      * rewrite Hkeys. apply NoDup_count_occ'.
        -- apply sorted_keys_NoDup. eapply wf_sorted; eassumption.
        -- apply find_In in Hf1. apply (in_map fst) in Hf1. exact Hf1.
      * intros e He. apply (in_map fst) in He. rewrite Hkeys in He.
        apply in_map_iff in He. destruct He as ([k c'] & <- & Hin).
        eapply child_key_valid; eassumption.
Qed.

Lemma C6_witness :
  (mkdir "Documents" sample = Some (sample, [err_exists "Documents"]) /\
   touch "Documents" sample = Some (sample, [err_exists "Documents"])) /\
  (exists fs1, mkdir "x" sample = Some (fs1, []) /\
     mkdir "x" fs1 = Some (fs1, [err_exists "x"]) /\
     exists lines, ls fs1 = Some lines /\
       count_occ string_dec lines "x/" + count_occ string_dec lines "x" = 1).
Proof.
  destruct (C6_create_never_overwrites sample sample_reachable) as [H1 H2].
  split; [apply H1; reflexivity|].
  eexists. split; [reflexivity|]. apply (H2 _ []). reflexivity.
Defined.

(** ** Search *)

Lemma concat_each_In f it sub x :
  concat_each f it = Some sub -> In x sub ->
  exists k c l, In (k, c) it /\ f c = Some l /\ In x l.
Proof.
  revert sub. induction it as [|[k c] it IH]; simpl; intros sub.
  - now intros [= <-].
  - destruct (f c) as [l|] eqn:Hl; [|discriminate].
    destruct (concat_each f it) as [r|]; [|discriminate].
    intros [= <-] Hin. apply in_app_or in Hin. destruct Hin as [Hin|Hin].
    + exists k, c, l. auto.
    + destruct (IH _ eq_refl Hin) as (k' & c' & l' & ? & ? & ?).
      exists k', c', l'. auto.
Qed.

Lemma concat_each_incl f it sub k c :
  concat_each f it = Some sub -> In (k, c) it ->
  exists l, f c = Some l /\ incl l sub.
Proof.
  revert sub. induction it as [|[k' c'] it IH]; simpl; intros sub; [easy|].
  destruct (f c') as [l|] eqn:Hl; [|discriminate].
  destruct (concat_each f it) as [r|]; [|discriminate].
  intros [= <-] [[= -> ->]|Hin].
  - exists l. split; [assumption|]. now apply incl_appl.
  - destruct (IH _ eq_refl Hin) as (l' & ? & ?).
    exists l'. split; [assumption|]. now apply incl_appr.
Qed.

Section Search.

Variable fs : FileSystem.
Hypothesis Hwf : wf fs.

(** The traversal returns once the fuel covers the addresses above the
    start node. *)
Lemma preorder_total : forall fuel a,
  a < List.length (mem fs) -> List.length (mem fs) <= fuel + a ->
  exists l, preorder fuel fs a = Some l.
Proof.
  induction fuel as [|fuel IH]; intros a Ha Hfuel; [lia|].
  destruct (lt_deref fs a Ha) as (n & Hn). simpl. rewrite Hn.
  destruct (type n); [eauto|].
  assert (Hsub : forall it, incl it (children n) ->
            exists sub, concat_each (preorder fuel fs) it = Some sub).
  { induction it as [|[k c] it IHit]; intros Hincl; simpl; [eauto|].
    assert (Hin : In (k, c) (children n)) by (apply Hincl; now left).
    pose proof (wf_child_lt fs Hwf _ _ _ _ Hn Hin) as Hlt.
    destruct (wf_children fs Hwf _ _ _ _ Hn Hin) as (cn & Hc & _).
    apply deref_lt in Hc.
    destruct (IH c) as (l & ->); [lia|lia|].
    destruct IHit as (r & ->); [intros x Hx; apply Hincl; now right|].
    eauto. }
  destruct (Hsub _ (incl_refl _)) as (sub & ->). eauto.
Qed.

(** Everything the traversal lists lies below its start node ... *)
Lemma preorder_walk : forall fuel p l x,
  preorder fuel fs p = Some l -> In x l ->
  exists names, walk fs names p = Some x.
Proof.
  induction fuel as [|fuel IH]; intros p l x; simpl; [discriminate|].
  destruct (deref fs p) as [n|] eqn:Hn; [|discriminate].
  destruct (type n).
  - intros [= <-] [<-|[]]. now exists [].
  - destruct (concat_each (preorder fuel fs) (children n)) as [sub|] eqn:Hsub;
      [|discriminate].
    intros [= <-] [<-|Hin]; [now exists []|].
    destruct (concat_each_In _ _ _ _ Hsub Hin) as (k & c & lc & Hkc & Hlc & Hx).
    destruct (IH _ _ _ Hlc Hx) as (names & Hw).
    exists (k :: names). simpl. rewrite Hn.
    now rewrite (sorted_In_find _ _ _ (wf_sorted fs Hwf _ _ Hn) Hkc).
Qed.

(** ... and everything below the start node is listed. *)
Lemma preorder_complete names : forall fuel p l x,
  preorder fuel fs p = Some l -> walk fs names p = Some x -> In x l.
Proof.
  induction names as [|s rest IH]; intros [|fuel] p l x; simpl;
    try discriminate;
    destruct (deref fs p) as [n|] eqn:Hn; try discriminate.
  - destruct (type n);
      [|destruct (concat_each _ _); [|discriminate]];
      intros [= <-] [= <-]; now left.
  - destruct (StdMap.find s (children n)) as [c|] eqn:Hf; [|intros _ [=]].
    rewrite (wf_has_child_dir fs Hwf _ _ _ _ Hn Hf).
    destruct (concat_each (preorder fuel fs) (children n)) as [sub|] eqn:Hsub;
      [|discriminate].
    intros [= <-] Hw. right.
    destruct (concat_each_incl _ _ _ _ _ Hsub (find_In _ _ _ Hf))
      as (lc & Hlc & Hincl).
    apply Hincl. eapply IH; eassumption.
Qed.

Lemma preorder_NoDup : forall fuel p l,
  preorder fuel fs p = Some l -> NoDup l.
Proof.
  induction fuel as [|fuel IH]; intros p l; simpl; [discriminate|].
  destruct (deref fs p) as [n|] eqn:Hn; [|discriminate].
  destruct (type n); [intros [= <-]; repeat constructor; easy|].
  destruct (concat_each (preorder fuel fs) (children n)) as [sub|] eqn:Hsub;
    [|discriminate].
  intros [= <-].
  pose proof (wf_sorted fs Hwf _ _ Hn) as Hsorted.
  assert (Hbelow : forall it sub x, incl it (children n) ->
            concat_each (preorder fuel fs) it = Some sub -> In x sub ->
            exists k c names, In (k, c) it /\
              walk fs (k :: names) p = Some x).
  { intros it sub' x Hincl Hs Hin.
    destruct (concat_each_In _ _ _ _ Hs Hin) as (k & c & lc & Hkc & Hlc & Hx).
    destruct (preorder_walk _ _ _ _ Hlc Hx) as (names & Hw).
    exists k, c, names. split; [assumption|]. simpl. rewrite Hn.
    now rewrite (sorted_In_find _ _ _ Hsorted (Hincl _ Hkc)). }
  constructor.
  - intros Hin.
    destruct (Hbelow _ _ _ (incl_refl _) Hsub Hin) as (k & c & names & _ & Hw).
    apply (walk_le fs Hwf) in Hw. simpl in Hw. lia.
  - assert (Hnd : forall it sub, incl it (children n) -> StdMap.sorted it ->
              concat_each (preorder fuel fs) it = Some sub -> NoDup sub).
    { induction it as [|[k c] it IHit]; intros sub' Hincl Hs; simpl.
      - intros [= <-]. constructor.
      - destruct (preorder fuel fs c) as [lc|] eqn:Hlc; [|discriminate].
        destruct (concat_each (preorder fuel fs) it) as [r|] eqn:Hr;
          [|discriminate].
        intros [= <-]. inversion Hs as [|? ? Hs' Hall]; subst.
        assert (Hincl' : incl it (children n))
          by (intros y Hy; apply Hincl; now right).
        apply NoDup_app; [eapply IH; eassumption|now apply IHit|].
        intros x Hx Hx'.
        destruct (preorder_walk _ _ _ _ Hlc Hx) as (names & Hw).
        destruct (Hbelow _ _ _ Hincl' Hr Hx') as (k' & c' & names' & Hin' & Hw').
        assert (Hw0 : walk fs (k :: names) p = Some x).
        { simpl. rewrite Hn.
          rewrite (sorted_In_find _ _ _ Hsorted (Hincl _ (or_introl eq_refl))).
          exact Hw. }
        pose proof (walk_inj fs Hwf _ _ _ _ Hw0 Hw') as [= -> _].
        rewrite Forall_forall in Hall. apply Hall in Hin'.
        exact (key_lt_irrefl _ Hin'). }
    exact (Hnd _ _ (incl_refl _) Hsorted Hsub).
Qed.

Lemma is_abs_path_getPath a n :
  deref fs a = Some n ->
  exists p, getPath fs a = Some p /\ is_abs_path_of fs a p.
Proof.
  intros Ha. destruct (walk_total fs Hwf _ _ Ha) as (names & Hw).
  exists (abs_path names). split; [now apply getPath_walk|].
  exists names. destruct (wf_root fs Hwf) as (-> & _). auto.
Qed.

(** [find_helper] appends to [results] the absolute paths of the matching
    nodes in the order of the pre-order traversal. *)
Lemma find_helper_preorder target : forall fuel a res nodes,
  preorder fuel fs a = Some nodes ->
  exists paths,
    find_helper fuel fs a target res = Some (res ++ paths)%list /\
    Forall2 (is_abs_path_of fs) (filter (has_name fs target) nodes) paths.
Proof.
  induction fuel as [|fuel IH]; intros a res nodes; simpl; [discriminate|].
  destruct (deref fs a) as [n|] eqn:Hn; [|discriminate].
  destruct (is_abs_path_getPath _ _ Hn) as (p & Hp & Habs). rewrite Hp.
  assert (Hloop : forall it sub res1,
            concat_each (preorder fuel fs) it = Some sub ->
            exists paths,
              for_each (fun c r => find_helper fuel fs c target r) it res1 =
                Some (res1 ++ paths)%list /\
              Forall2 (is_abs_path_of fs)
                (filter (has_name fs target) sub) paths).
  { induction it as [|[k c] it IHit]; intros sub res1; simpl.
    - intros [= <-]. exists []. rewrite app_nil_r. split; constructor.
    - destruct (preorder fuel fs c) as [lc|] eqn:Hlc; [|discriminate].
      destruct (concat_each (preorder fuel fs) it) as [r|] eqn:Hr;
        [|discriminate].
      intros [= <-].
      destruct (IH c res1 _ Hlc) as (p1 & -> & H1).
      destruct (IHit _ (res1 ++ p1)%list eq_refl) as (p2 & -> & H2).
      exists (p1 ++ p2)%list. rewrite app_assoc, filter_app.
      split; [reflexivity|now apply Forall2_app]. }
  assert (Hhead : has_name fs target a = (name n =? target))
    by (unfold has_name; now rewrite Hn).
  destruct (type n).
  - intros [= <-]. simpl. rewrite Hhead.
    destruct (name n =? target).
    + exists [p]. split; [reflexivity|]. now repeat constructor.
    + exists []. rewrite app_nil_r. split; constructor.
  - destruct (concat_each (preorder fuel fs) (children n)) as [sub|] eqn:Hsub;
      [|discriminate].
    intros [= <-]. simpl. rewrite Hhead.
    destruct (name n =? target).
    + destruct (Hloop _ _ (res ++ [p])%list Hsub) as (paths & -> & Hall).
      exists (p :: paths). rewrite <- app_assoc.
      split; [reflexivity|now constructor].
    + destruct (Hloop _ _ res Hsub) as (paths & -> & Hall).
      exists paths. auto.
Qed.

End Search.

Lemma filter_has_name_nil fs target nodes :
  (forall a n, deref fs a = Some n -> name n <> target) ->
  filter (has_name fs target) nodes = [].
Proof.
  intros Hnone. induction nodes as [|a nodes IH]; [reflexivity|].
  simpl. unfold has_name at 1.
  destruct (deref fs a) as [n|] eqn:Ha; [|exact IH].
  now rewrite (proj2 (String.eqb_neq _ _) (Hnone _ _ Ha)).
Qed.

(** C2: in every reachable state, [find(target)] returns, without failing,
    the absolute paths of exactly the nodes whose name is [target], each
    once, in the order of the depth-first pre-order traversal from the root
    in which the children of a node are visited in ascending key order.  The
    traversal covers every node of the tree; the root is called ["/"], so
    [find("/")] lists ["/"]; and when no node matches, the result is empty
    and only the not-found line is printed. *)
Theorem C2_find_preorder_exact (fs : FileSystem) :
  reachable fs ->
  forall target, exists nodes paths,
    preorder (List.length (mem fs)) fs (root fs) = Some nodes /\
    (forall a, In a nodes <-> a < List.length (mem fs)) /\
    NoDup nodes /\
    (forall a n, deref fs a = Some n -> StdMap.sorted (children n)) /\
    find_results fs target = Some paths /\
    Forall2 (is_abs_path_of fs) (filter (has_name fs target) nodes) paths /\
    find fs target =
      Some (match paths with [] => [msg_not_found target] | _ => paths end) /\
    ((forall a n, deref fs a = Some n -> name n <> target) -> paths = []) /\
    (target = "/" -> In "/" paths).
Proof.
  intros Hreach target. apply reachable_wf in Hreach.
  destruct (wf_root fs Hreach) as (Hroot & r & Hr & Hrname & _).
  destruct (preorder_total fs Hreach (List.length (mem fs)) 0) as (nodes & Hpre);
    [eapply deref_lt; eassumption|lia|].
  destruct (find_helper_preorder fs Hreach target _ _ [] _ Hpre)
    as (paths & Hfind & Hall).
  change ([] ++ paths)%list with paths in Hfind.
  assert (Hres : find_results fs target = Some paths).
  { unfold find_results. rewrite Hroot. exact Hfind. }
  exists nodes, paths.
  split; [rewrite Hroot; exact Hpre|].
  split; [|split; [|split; [|split; [|split; [|split; [|split]]]]]].
  - intros a. split.
    + intros Hin. destruct (preorder_walk fs Hreach _ _ _ _ Hpre Hin) as (names & Hw).
      destruct (walk_deref fs Hreach _ _ _ _ Hr Hw) as (an & Ha).
      eapply deref_lt; eassumption.
    + intros Ha. destruct (lt_deref fs a Ha) as (an & Han).
      destruct (walk_total fs Hreach _ _ Han) as (names & Hw).
      eapply preorder_complete; eassumption.
  - eapply preorder_NoDup; eassumption.
  - intros a n. apply (wf_sorted fs Hreach).
  - exact Hres.
  - exact Hall.
  - unfold find. rewrite Hres. now destruct paths.
  - intros Hnone. rewrite filter_has_name_nil in Hall by assumption.
    now inversion Hall.
  - intros ->.
    destruct (List.length (mem fs)) as [|fuel]; [discriminate|].
    simpl in Hpre. rewrite Hr in Hpre.
    assert (Hhd : exists sub, nodes = 0 :: sub).
    { destruct (type r); [injection Hpre as <-; eauto|].
      destruct (concat_each _ _); [|discriminate].
      injection Hpre as <-. eauto. }
    destruct Hhd as (sub & ->). simpl in Hall. unfold has_name at 1 in Hall.
    rewrite Hr, Hrname in Hall. simpl in Hall.
    inversion Hall as [|? p0 ? ps (names & Hw & ->) _]; subst.
    left. rewrite Hroot in Hw. apply (walk_le fs Hreach) in Hw.
    destruct names; [reflexivity|simpl in Hw; lia].
Qed.

(** ** The cursor invariant *)

Lemma wf_cursor_ok fs : wf fs -> cursor_ok fs.
Proof.
  intros Hwf. destruct (wf_cursor fs Hwf) as (names & n & _ & Hw & Hn & Hty).
  destruct (wf_root fs Hwf) as (Hroot & _).
  exists names, n. rewrite Hroot. auto.
Qed.

Lemma find_total fs target :
  wf fs -> exists out, find fs target = Some out.
Proof.
  intros Hwf. destruct (wf_root fs Hwf) as (Hroot & r & Hr & _).
  destruct (preorder_total fs Hwf (List.length (mem fs)) 0) as (nodes & Hpre);
    [eapply deref_lt; eassumption|lia|].
  destruct (find_helper_preorder fs Hwf target _ _ [] _ Hpre)
    as (paths & Hfind & _).
  unfold find, find_results. rewrite Hroot, Hfind.
  destruct ([] ++ paths)%list; eauto.
Qed.

Lemma ls_total fs : wf fs -> exists out, ls fs = Some out.
Proof.
  intros Hwf. destruct (wf_cursor fs Hwf) as (_ & cur & _ & _ & Hcur & _).
  destruct (ls_loop_entries fs Hwf _ _ Hcur (children cur) (incl_refl _))
    as (entries & _ & Hls).
  unfold ls. rewrite Hcur. eauto.
Qed.

Lemma pwd_total fs : wf fs -> exists out, pwd fs = Some out.
Proof.
  intros Hwf. destruct (wf_cursor fs Hwf) as (_ & cur & _ & _ & Hcur & _).
  destruct (getPath_total fs Hwf _ _ Hcur) as (p & Hp).
  unfold pwd. rewrite Hp. eauto.
Qed.

(** C9: the cursor of a fresh file system refers to a live directory node
    reachable from the root, and so does the cursor of every reachable
    state; each of [mkdir], [touch] and [cd] returns, on any argument and
    whether it reports an error or not, a state whose cursor again does;
    [pwd], [ls] and [find] return and do not touch the state. *)
Theorem C9_cursor_invariant (fs : FileSystem) :
  reachable fs ->
  cursor_ok FileSystem_new /\
  cursor_ok fs /\
  (forall nm, exists fs' out, mkdir nm fs = Some (fs', out) /\ cursor_ok fs') /\
  (forall nm, exists fs' out, touch nm fs = Some (fs', out) /\ cursor_ok fs') /\
  (forall path, exists fs' out, cd path fs = Some (fs', out) /\ cursor_ok fs') /\
  (exists out, pwd fs = Some out) /\
  (exists out, ls fs = Some out) /\
  (forall nm, exists out, find fs nm = Some out).
Proof.
  intros Hreach. pose proof (reachable_wf _ Hreach) as Hwf.
  split; [apply wf_cursor_ok, FileSystem_new_wf|].
  split; [now apply wf_cursor_ok|].
  split; [|split; [|split; [|split; [|split]]]].
  - intros nm. destruct (create_total DIRECTORY err_dir_name nm fs Hwf)
      as (fs' & out & H).
    exists fs', out. split; [exact H|]. eapply wf_cursor_ok, create_wf; eassumption.
  - intros nm. destruct (create_total FILE err_file_name nm fs Hwf)
      as (fs' & out & H).
    exists fs', out. split; [exact H|]. eapply wf_cursor_ok, create_wf; eassumption.
  - intros path. destruct (cd_total path fs Hwf) as (fs' & out & H).
    exists fs', out. split; [exact H|]. eapply wf_cursor_ok, cd_wf; eassumption.
  - now apply pwd_total.
  - now apply ls_total.
  - intros nm. now apply find_total.
Qed.

Lemma C9_witness :
  cursor_ok sample /\
  (exists fs' out, mkdir "a/b" sample = Some (fs', out) /\ cursor_ok fs') /\
  (exists fs' out, touch "notes" sample = Some (fs', out) /\ cursor_ok fs') /\
  (exists fs' out, cd "../../.." sample = Some (fs', out) /\ cursor_ok fs') /\
  (exists fs' out, cd "profile.txt" sample = Some (fs', out) /\ cursor_ok fs').
Proof.
  destruct (C9_cursor_invariant sample sample_reachable)
    as (_ & H0 & H1 & H2 & H3 & _).
  repeat split; auto.
Defined.

Lemma C2_witness :
  (exists nodes paths,
     preorder (List.length (mem sample)) sample (root sample) = Some nodes /\
     (forall a, In a nodes <-> a < List.length (mem sample)) /\
     NoDup nodes /\
     (forall a n, deref sample a = Some n -> StdMap.sorted (children n)) /\
     find_results sample "user" = Some paths /\
     Forall2 (is_abs_path_of sample)
       (filter (has_name sample "user") nodes) paths /\
     find sample "user" =
       Some (match paths with [] => [msg_not_found "user"] | _ => paths end) /\
     ((forall a n, deref sample a = Some n -> name n <> "user") -> paths = []) /\
     ("user" = "/" -> In "/" paths)) /\
  find sample "user" = Some ["/home/user"] /\
  find sample "missing" = Some [msg_not_found "missing"] /\
  find sample "/" = Some ["/"].
Proof.
  split; [|repeat split; reflexivity].
  exact (C2_find_preorder_exact sample sample_reachable "user").
Defined.


(** * Further properties of the code *)

(** ** [splitPath] *)

Lemma string_find_None_iff s :
  string_find "/" s = None <-> ~ contains_separator s.
Proof.
  split.
  - intros Hf Hc. apply isValidName_spec in Hc. unfold isValidName in Hc.
    rewrite Hf in Hc. discriminate.
  - intros Hn. destruct (string_find "/" s) eqn:E; [|reflexivity].
    exfalso. apply Hn, isValidName_spec. unfold isValidName. now rewrite E.
Qed.

Lemma separator_decomposition s :
  string_find "/" s = None \/
  exists p r, string_find "/" p = None /\ s = p ++ "/" ++ r.
Proof.
  induction s as [|c s IH]; [now left|].
  destruct (Ascii.eqb_spec c "/") as [->|Hc].
  - right. exists "", s. now split.
  - destruct IH as [IH|(p & r & Hp & ->)].
    + left. simpl. rewrite (proj2 (Ascii.eqb_neq _ _) Hc). now rewrite IH.
    + right. exists (String c p), r. split; [|reflexivity].
      simpl. rewrite (proj2 (Ascii.eqb_neq _ _) Hc). now rewrite Hp.
Qed.

Lemma length_append (a b : string) :
  String.length (a ++ b) = String.length a + String.length b.
Proof. induction a; simpl; auto. Qed.

Lemma splitPath_no_separator p :
  string_find "/" p = None -> splitPath p = if p =? "" then [] else [p].
Proof.
  intros Hp. destruct p as [|c p]; [reflexivity|].
  unfold splitPath. cbn [splitPath_loop getline].
  rewrite (read_until_last _ Hp). cbn [String.eqb].
  now rewrite splitPath_loop_empty.
Qed.

Lemma splitPath_segment p r :
  string_find "/" p = None ->
  splitPath (p ++ "/" ++ r) =
  ((if p =? "" then [] else [p]) ++ splitPath r)%list.
Proof.
  intros Hp. unfold splitPath at 1. cbn [splitPath_loop]. unfold getline.
  destruct (p ++ "/" ++ r) as [|c x] eqn:E.
  { destruct p; discriminate. }
  rewrite <- E. change ("/" ++ r) with (String "/" r).
  rewrite (read_until_segment _ _ Hp).
  rewrite splitPath_fuel.
  - now destruct (p =? "").
  - rewrite length_append. simpl. lia.
Qed.

Lemma splitPath_append_separator a : forall b,
  splitPath (a ++ "/" ++ b) = (splitPath a ++ splitPath b)%list.
Proof.
  remember (String.length a) as n eqn:Hn. revert a Hn.
  induction n as [n IH] using lt_wf_ind. intros a Hn b.
  destruct (separator_decomposition a) as [Ha|(p & r & Hp & ->)].
  - rewrite (splitPath_segment _ _ Ha), (splitPath_no_separator _ Ha).
    reflexivity.
  - rewrite append_assoc. change (("/" ++ r) ++ "/" ++ b) with
      ("/" ++ r ++ "/" ++ b).
    rewrite !(splitPath_segment _ _ Hp).
    rewrite (IH (String.length r)) with (a := r); [|subst n|reflexivity].
    + now rewrite app_assoc.
    + rewrite length_append. simpl. lia.
Qed.

Lemma splitPath_is_segment path : Forall is_segment (splitPath path).
Proof.
  eapply Forall_impl; [|apply splitPath_parts].
  intros s (Hne & Hv). split; [exact Hne|].
  intros Hc. apply isValidName_spec in Hc. congruence.
Qed.

(** X1: whatever the path, [splitPath] yields only segments that are
    non-empty and free of separators, and as many of them as the path has
    maximal separator-free runs: none for a path made of separators only. *)
Theorem X1_splitPath_yields_segments (path : string) :
  Forall is_segment (splitPath path) /\
  ((forall c, In c (list_ascii_of_string path) -> c = "/"%char) ->
   splitPath path = []).
Proof.
  split; [apply splitPath_is_segment|].
  induction path as [|c path IH]; intros Hall; [reflexivity|].
  assert (c = "/"%char) by (apply Hall; now left). subst c.
  change (String "/" path) with ("" ++ "/" ++ path).
  rewrite splitPath_append_separator. apply IH.
  intros c Hc. apply Hall. now right.
Qed.

Lemma X1_witness : splitPath "///" = [].
Proof.
  apply (proj2 (X1_splitPath_yields_segments "///")).
  simpl. intuition.
Defined.

(** X2: splitting distributes over a separator: the segments of
    [a ++ "/" ++ b] are those of [a] followed by those of [b].  Hence a
    leading, a trailing or a doubled separator changes nothing. *)
Theorem X2_splitPath_distributes_over_separator (a b : string) :
  splitPath (a ++ "/" ++ b) = (splitPath a ++ splitPath b)%list /\
  splitPath ("/" ++ b) = splitPath b /\
  splitPath (a ++ "/") = splitPath a /\
  splitPath (a ++ "//" ++ b) = splitPath (a ++ "/" ++ b).
Proof.
  split; [apply splitPath_append_separator|].
  split; [apply (splitPath_append_separator "" b)|].
  split.
  - change (a ++ "/") with (a ++ "/" ++ "").
    rewrite (splitPath_append_separator a ""). apply app_nil_r.
  - change (a ++ "//" ++ b) with (a ++ "/" ++ ("/" ++ b)).
    rewrite !splitPath_append_separator. reflexivity.
Qed.

(** X3: [splitPath] recovers the segments an absolute path was built from,
    and rebuilding the path from the segments of any string gives a string
    with the same segments. *)
Theorem X3_splitPath_abs_path_round_trip (names : list string) :
  Forall is_segment names ->
  splitPath (abs_path names) = names /\
  (forall path, splitPath (abs_path (splitPath path)) = splitPath path).
Proof.
  assert (H : forall l, Forall is_segment l -> splitPath (abs_path l) = l).
  { intros l Hl. destruct l as [|s l]; [reflexivity|].
    unfold abs_path. apply splitPath_join.
    eapply Forall_impl; [|exact Hl]. intros x (Hne & Hc).
    split; [exact Hne|]. unfold isValidName.
    now rewrite (proj2 (string_find_None_iff x) Hc). }
  intros Hnames. split; [now apply H|].
  intros path. apply H, splitPath_is_segment.
Qed.

Lemma X3_witness :
  splitPath (abs_path ["home"; "user"]) = ["home"; "user"] /\
  splitPath (abs_path (splitPath "home//user/")) = splitPath "home//user/".
Proof.
  destruct (X3_splitPath_abs_path_round_trip ["home"; "user"]) as [H1 H2].
  - repeat constructor; try discriminate;
      unfold contains_separator; simpl; intuition discriminate.
  - split; [exact H1|apply H2].
Defined.


(** ** What [cd] depends on and what it changes *)

Lemma deref_ext fs1 fs2 p : mem fs1 = mem fs2 -> deref fs1 p = deref fs2 p.
Proof. unfold deref. now intros ->. Qed.

Lemma walk_ext fs1 fs2 names : mem fs1 = mem fs2 ->
  forall p, walk fs1 names p = walk fs2 names p.
Proof.
  intros Hm. induction names as [|s names IH]; intros p; simpl; [reflexivity|].
  rewrite (deref_ext fs1 fs2 p Hm).
  destruct (deref fs2 p) as [n|]; [|reflexivity].
  destruct (StdMap.find s (children n)); auto.
Qed.

Lemma navigateToPath_ext fs1 fs2 parts : mem fs1 = mem fs2 ->
  forall start, navigateToPath fs1 parts start = navigateToPath fs2 parts start.
Proof.
  intros Hm. induction parts as [|part rest IH]; intros start; simpl;
    [reflexivity|].
  rewrite (deref_ext fs1 fs2 start Hm).
  destruct (part =? "..").
  { destruct (deref fs2 start) as [t|]; [|reflexivity].
    destruct (parent t); apply IH. }
  destruct (part =? "."); cbn [negb]; [apply IH|].
  destruct (deref fs2 start) as [t|]; [|reflexivity].
  destruct (type t); [reflexivity|].
  destruct (0 <? StdMap.count part (children t))%nat; [|reflexivity].
  destruct (StdMap.find part (children t)) as [c|]; [|reflexivity].
  rewrite (deref_ext fs1 fs2 c Hm).
  destruct (deref fs2 c) as [cn|]; [|reflexivity].
  destruct (type cn); [reflexivity|apply IH].
Qed.

Lemma getPath_rec_ext fs1 fs2 fuel :
  mem fs1 = mem fs2 -> root fs1 = root fs2 ->
  forall a, getPath_rec fuel fs1 a = getPath_rec fuel fs2 a.
Proof.
  intros Hm Hr. induction fuel as [|fuel IH]; intros a; simpl; [reflexivity|].
  rewrite Hr, (deref_ext fs1 fs2 a Hm).
  destruct (a =? root fs2)%nat; [reflexivity|].
  destruct (deref fs2 a) as [n|]; [|reflexivity].
  destruct (parent_is n (root fs2)); [reflexivity|].
  destruct (parent n); [|reflexivity]. now rewrite IH.
Qed.

Lemma getPath_ext fs1 fs2 a :
  mem fs1 = mem fs2 -> root fs1 = root fs2 -> getPath fs1 a = getPath fs2 a.
Proof.
  intros Hm Hr. unfold getPath. rewrite Hm. now apply getPath_rec_ext.
Qed.

Lemma find_helper_ext fs1 fs2 target fuel :
  mem fs1 = mem fs2 -> root fs1 = root fs2 ->
  forall a res,
    find_helper fuel fs1 a target res = find_helper fuel fs2 a target res.
Proof.
  intros Hm Hr. induction fuel as [|fuel IH]; intros a res; simpl;
    [reflexivity|].
  rewrite (deref_ext fs1 fs2 a Hm), (getPath_ext fs1 fs2 a Hm Hr).
  destruct (deref fs2 a) as [n|]; [|reflexivity].
  destruct (if name n =? target
            then p <- getPath fs2 a ;; Some (res ++ [p])%list
            else Some res) as [res1|]; [|reflexivity].
  destruct (type n); [reflexivity|].
  generalize res1. induction (children n) as [|[k c] it IHit]; intros r;
    simpl; [reflexivity|].
  rewrite IH. destruct (find_helper fuel fs2 c target r); auto.
Qed.

Lemma find_ext fs1 fs2 nm :
  mem fs1 = mem fs2 -> root fs1 = root fs2 -> find fs1 nm = find fs2 nm.
Proof.
  intros Hm Hr. unfold find, find_results.
  now rewrite Hm, Hr, (find_helper_ext fs1 fs2 nm _ Hm Hr).
Qed.

Lemma same_store_eq fs1 fs2 :
  mem fs1 = mem fs2 -> root fs1 = root fs2 ->
  currentDirectory fs1 = currentDirectory fs2 -> fs1 = fs2.
Proof. destruct fs1, fs2. simpl. now intros -> -> ->. Qed.

(** [cd] succeeds exactly when [navigateToPath] returns a node, and then
    only moves the cursor there. *)
Lemma cd_success_iff path fs fs' :
  cd path fs = Some (fs', []) <->
  exists t,
    navigateToPath fs (splitPath path) (cd_start path fs) = Some (Some t) /\
    fs' = set_currentDirectory fs t.
Proof.
  unfold cd. fold (cd_start path fs).
  destruct (String.eqb_spec path "/") as [->|_].
  - change (splitPath "/") with (@nil string).
    change (cd_start "/" fs) with (root fs). simpl. split.
    + intros [= <-]. eauto.
    + intros (t & [= <-] & ->). reflexivity.
  - destruct (navigateToPath fs (splitPath path) (cd_start path fs))
      as [[t|]|]; split; try discriminate.
    + intros [= <-]. eauto.
    + intros (t' & [= <-] & ->). reflexivity.
    + intros (t' & [=] & _).
    + intros (t' & [=] & _).
Qed.

Lemma cd_failure path fs fs' e out :
  cd path fs = Some (fs', e :: out) ->
  fs' = fs /\ e = err_path path /\ out = [].
Proof.
  unfold cd. destruct (path =? "/"); [discriminate|].
  destruct (navigateToPath _ _ _) as [[t|]|]; try discriminate.
  now intros [= <- <- <-].
Qed.

(** X4: for a non-empty path [a] and a relative path [b], [cd] to
    [a ++ "/" ++ b] succeeds exactly when [cd] to [a] followed by [cd] to [b]
    both succeed, and it ends in the same state. *)
Theorem X4_cd_composes (fs fs2 : FileSystem) (a b : string) :
  a <> "" -> starts_with_slash b = false ->
  (cd (a ++ "/" ++ b) fs = Some (fs2, []) <->
   exists fs1, cd a fs = Some (fs1, []) /\ cd b fs1 = Some (fs2, [])).
Proof.
  intros Ha Hb.
  assert (Hstart : cd_start (a ++ "/" ++ b) fs = cd_start a fs).
  { unfold cd_start. destruct a; [contradiction|reflexivity]. }
  assert (Hrel : forall fs1, cd_start b fs1 = currentDirectory fs1).
  { intros fs1. unfold cd_start. now rewrite Hb. }
  rewrite cd_success_iff, splitPath_append_separator, Hstart.
  setoid_rewrite navigateToPath_app. split.
  - intros (t2 & Hnav & ->).
    destruct (navigateToPath fs (splitPath a) (cd_start a fs)) as [[t|]|] eqn:Ht;
      try discriminate.
    exists (set_currentDirectory fs t). split.
    + apply cd_success_iff. eauto.
    + apply cd_success_iff. exists t2. rewrite Hrel.
      rewrite (navigateToPath_ext _ fs) by reflexivity. auto.
  - intros (fs1 & H1 & H2).
    apply cd_success_iff in H1. destruct H1 as (t & Ht & ->).
    apply cd_success_iff in H2. destruct H2 as (t2 & Ht2 & ->).
    rewrite Hrel in Ht2.
    rewrite (navigateToPath_ext _ fs) in Ht2 by reflexivity.
    exists t2. rewrite Ht. auto.
Qed.

Lemma X4_witness :
  exists fs2,
    cd "../user/Documents" sample = Some (fs2, []) /\
    exists fs1, cd ".." sample = Some (fs1, []) /\
                cd "user/Documents" fs1 = Some (fs2, []).
Proof.
  eexists. split; [lazy; reflexivity|].
  apply (X4_cd_composes sample _ ".." "user/Documents");
    [discriminate|reflexivity|lazy; reflexivity].
Defined.

(** X12: where an absolute path leads does not depend on the cursor: after
    any other [cd], a [cd] to the absolute path [p] ends in the state it
    would have ended in before, or fails as it would have failed. *)
Theorem X12_absolute_cd_ignores_cursor (fs fsq : FileSystem)
    (p q : string) (outq : list string) :
  starts_with_slash p = true ->
  cd q fs = Some (fsq, outq) ->
  (forall fs1, cd p fs = Some (fs1, []) -> cd p fsq = Some (fs1, [])) /\
  (cd p fs = Some (fs, [err_path p]) -> cd p fsq = Some (fsq, [err_path p])).
Proof.
  intros Hp Hq. destruct (cd_mem _ _ _ _ Hq) as (Hm & Hr).
  assert (Hnav : navigateToPath fsq (splitPath p) (cd_start p fsq) =
                 navigateToPath fs (splitPath p) (cd_start p fs)).
  { unfold cd_start. rewrite Hp, Hr. now apply navigateToPath_ext. }
  split.
  - intros fs1 H. apply cd_success_iff in H. destruct H as (t & Ht & ->).
    apply cd_success_iff. exists t. rewrite Hnav. split; [exact Ht|].
    now apply same_store_eq.
  - unfold cd. fold (cd_start p fs) (cd_start p fsq). rewrite Hnav.
    destruct (p =? "/"); [discriminate|].
    destruct (navigateToPath fs (splitPath p) (cd_start p fs)) as [[t|]|];
      try discriminate. reflexivity.
Qed.

Lemma X12_witness :
  exists fs1 fsq,
    cd "/home" sample = Some (fs1, []) /\
    cd "Documents" sample = Some (fsq, []) /\
    cd "/home" fsq = Some (fs1, []).
Proof.
  eexists _, _. split; [lazy; reflexivity|]. split; [lazy; reflexivity|].
  eapply (proj1 (X12_absolute_cd_ignores_cursor sample _ "/home" "Documents" []
                   eq_refl eq_refl)).
  lazy; reflexivity.
Defined.

(** X13: [cd] changes nothing but the cursor: the store and the root are
    the same afterwards, so [find] prints the same and [getPath] of any node
    is the same, whether the call succeeded or not. *)
Theorem X13_cd_changes_only_cursor (fs fs' : FileSystem) (path : string)
    (out : list string) :
  cd path fs = Some (fs', out) ->
  mem fs' = mem fs /\ root fs' = root fs /\
  (forall nm, find fs' nm = find fs nm) /\
  (forall a, getPath fs' a = getPath fs a).
Proof.
  intros H. destruct (cd_mem _ _ _ _ H) as (Hm & Hr).
  repeat split; auto using find_ext, getPath_ext.
Qed.

Lemma X13_witness :
  exists fs',
    cd "Documents" sample = Some (fs', []) /\
    find fs' "user" = find sample "user" /\
    find sample "user" = Some ["/home/user"].
Proof.
  eexists. split; [lazy; reflexivity|]. split; [|reflexivity].
  eapply (X13_cd_changes_only_cursor sample _ "Documents" []).
  lazy; reflexivity.
Defined.

(** ** Moving down and up *)

Lemma splitPath_abs_path names :
  Forall segment_ok names -> splitPath (abs_path names) = names.
Proof.
  intros Hl. destruct names as [|s l]; [reflexivity|].
  unfold abs_path. apply splitPath_join.
  eapply Forall_impl; [|exact Hl]. intros x (Hne & Hv & _). now split.
Qed.

Lemma segment_ok_shape s :
  segment_ok s ->
  string_find "/" s = None /\ starts_with_slash s = false /\
  (s =? "..") = false /\ (s =? ".") = false /\ splitPath s = [s].
Proof.
  intros (Hne & Hv & Hd & Hdd). unfold isValidName in Hv.
  destruct (string_find "/" s) eqn:Hf; [discriminate|].
  split; [reflexivity|]. split.
  - destruct s as [|c s]; [reflexivity|]. simpl in *.
    now destruct (Ascii.eqb c "/").
  - rewrite (proj2 (String.eqb_neq _ _) Hdd), (proj2 (String.eqb_neq _ _) Hd).
    rewrite (splitPath_no_separator _ Hf).
    now rewrite (proj2 (String.eqb_neq _ _) Hne).
Qed.

(** An ordinary segment resolves only to a child directory of that name. *)
Lemma navigateToPath_single fs s cur t :
  (s =? "..") = false -> (s =? ".") = false ->
  navigateToPath fs [s] cur = Some (Some t) ->
  exists n cn, deref fs cur = Some n /\ type n = DIRECTORY /\
    StdMap.find s (children n) = Some t /\
    deref fs t = Some cn /\ type cn = DIRECTORY.
Proof.
  intros Hdd Hd. simpl. rewrite Hdd, Hd. cbn [negb].
  destruct (deref fs cur) as [n|] eqn:Hn; [|discriminate].
  destruct (type n) eqn:Hty; [discriminate|].
  destruct (0 <? StdMap.count s (children n))%nat; [|discriminate].
  destruct (StdMap.find s (children n)) as [c|] eqn:Hf; [|discriminate].
  destruct (deref fs c) as [cn|] eqn:Hc; [|discriminate].
  destruct (type cn) eqn:Hcty; [discriminate|].
  intros [= <-]. exists n, cn. auto.
Qed.

(** X5: entering a child directory through an ordinary segment and then
    [cd("..")] is a round trip: the second call succeeds and restores the
    state; so does the single call with the path [s ++ "/.."]. *)
Theorem X5_cd_child_then_parent (fs fs1 : FileSystem) (s : string) :
  reachable fs -> segment_ok s ->
  cd s fs = Some (fs1, []) ->
  currentDirectory fs1 <> currentDirectory fs /\
  cd ".." fs1 = Some (fs, []) /\
  cd (s ++ "/..") fs = Some (fs, []).
Proof.
  intros Hreach Hs Hcd. apply reachable_wf in Hreach.
  destruct (segment_ok_shape s Hs) as (Hf & Hrel & Hdd & Hd & Hsplit).
  apply cd_success_iff in Hcd. destruct Hcd as (t & Hnav & ->).
  unfold cd_start in Hnav. rewrite Hrel, Hsplit in Hnav.
  destruct (navigateToPath_single _ _ _ _ Hdd Hd Hnav)
    as (n & cn & Hn & Hty & Hfind & Hc & Hcty).
  destruct (wf_children fs Hreach _ _ _ _ Hn (find_In _ _ _ Hfind))
    as (cn' & Hc' & _ & Hpar).
  assert (cn' = cn) by congruence. subst cn'.
  pose proof (wf_child_lt fs Hreach _ _ _ _ Hn (find_In _ _ _ Hfind)) as Hlt.
  assert (Hup : navigateToPath fs [".."] t = Some (Some (currentDirectory fs))).
  { simpl. now rewrite Hc, Hpar. }
  split; [simpl; lia|]. split.
  - apply cd_success_iff. exists (currentDirectory fs).
    change (splitPath "..") with [".."].
    change (cd_start ".." (set_currentDirectory fs t)) with t.
    rewrite (navigateToPath_ext _ fs) by reflexivity.
    split; [exact Hup|]. now destruct fs.
  - apply cd_success_iff. exists (currentDirectory fs).
    change (s ++ "/..") with (s ++ "/" ++ "..").
    rewrite splitPath_append_separator, Hsplit.
    change (splitPath "..") with [".."].
    assert (Hst : cd_start (s ++ "/" ++ "..") fs = currentDirectory fs).
    { unfold cd_start. destruct s as [|c s]; [discriminate Hsplit|].
      simpl in *. now rewrite Hrel. }
    rewrite Hst, navigateToPath_app, Hnav.
    split; [exact Hup|now destruct fs].
Qed.

Lemma X5_witness :
  exists fs1,
    cd "Documents" sample = Some (fs1, []) /\
    cd ".." fs1 = Some (sample, []) /\
    cd "Documents/.." sample = Some (sample, []).
Proof.
  eexists. split; [lazy; reflexivity|].
  refine (proj2 (X5_cd_child_then_parent sample _ "Documents"
                   sample_reachable _ _)).
  - repeat split; discriminate.
  - lazy; reflexivity.
Defined.

(** X14: the path printed by [pwd] identifies the directory: two states
    reached from the same state by [cd] that print the same path are the same
    state. *)
Theorem X14_pwd_identifies_cursor (fs fs1 fs2 : FileSystem) (p q : string)
    (o1 o2 : list string) :
  reachable fs ->
  cd p fs = Some (fs1, o1) -> cd q fs = Some (fs2, o2) ->
  pwd fs1 = pwd fs2 -> fs1 = fs2.
Proof.
  intros Hreach H1 H2 Hpwd. apply reachable_wf in Hreach.
  pose proof (cd_wf _ _ _ _ Hreach H1) as Hwf1.
  pose proof (cd_wf _ _ _ _ Hreach H2) as Hwf2.
  destruct (cd_mem _ _ _ _ H1) as (Hm1 & Hr1).
  destruct (cd_mem _ _ _ _ H2) as (Hm2 & Hr2).
  destruct (wf_cursor fs1 Hwf1) as (names1 & n1 & Hs1 & Hw1 & _).
  destruct (wf_cursor fs2 Hwf2) as (names2 & n2 & Hs2 & Hw2 & _).
  unfold pwd in Hpwd.
  rewrite (getPath_walk fs1 Hwf1 _ _ Hw1) in Hpwd.
  rewrite (getPath_walk fs2 Hwf2 _ _ Hw2) in Hpwd.
  injection Hpwd as Hpath.
  apply (f_equal splitPath) in Hpath.
  rewrite !splitPath_abs_path in Hpath by assumption. subst names2.
  rewrite (walk_ext fs1 fs2) in Hw1 by congruence.
  apply same_store_eq; congruence.
Qed.

Lemma X14_witness :
  set_currentDirectory sample 5 =
  mkFileSystem (mem sample) (root sample) 5.
Proof.
  apply (X14_pwd_identifies_cursor sample _ _
           "Documents/../Downloads" "/home/user/Downloads" [] []
           sample_reachable); vm_compute; reflexivity.
Defined.

(** X15: a ["."] segment has no effect wherever it stands in the list of
    segments; so for a relative path [q], [cd] to ["./" ++ q] succeeds
    exactly when [cd] to [q] does, with the same state. *)
Theorem X15_dot_segment_is_ignored (fs : FileSystem) :
  (forall pre post start,
     navigateToPath fs (pre ++ "." :: post) start =
     navigateToPath fs (pre ++ post) start) /\
  (forall q fs', starts_with_slash q = false ->
     (cd ("./" ++ q) fs = Some (fs', []) <-> cd q fs = Some (fs', []))).
Proof.
  split.
  - intros pre post start. rewrite !navigateToPath_app.
    now destruct (navigateToPath fs pre start) as [[t|]|].
  - intros q fs' Hq. rewrite !cd_success_iff.
    change ("./" ++ q) with ("." ++ "/" ++ q).
    rewrite splitPath_append_separator.
    change (splitPath ".") with ["."].
    unfold cd_start. rewrite Hq. reflexivity.
Qed.

Lemma X15_witness :
  exists fs',
    cd "Documents" sample = Some (fs', []) /\
    cd "./Documents" sample = Some (fs', []).
Proof.
  eexists. split; [lazy; reflexivity|].
  apply (proj2 (X15_dot_segment_is_ignored sample) "Documents" _ eq_refl).
  lazy; reflexivity.
Defined.

Lemma splitPath_up_path k : splitPath (up_path k) = repeat ".." k.
Proof.
  induction k as [|k IH]; [reflexivity|].
  change (up_path (S k)) with (".." ++ "/" ++ up_path k).
  rewrite splitPath_segment by reflexivity. simpl. now rewrite IH.
Qed.

Lemma navigateToPath_up fs : wf fs ->
  forall names t k,
    walk fs names 0 = Some t -> List.length names <= k ->
    navigateToPath fs (repeat ".." k) t = Some (Some 0).
Proof.
  intros Hwf.
  destruct (wf_root fs Hwf) as (_ & r & Hr & _ & _ & Hpar).
  induction names as [|s names IH] using List.rev_ind; intros t k Hw Hk.
  - simpl in Hw. injection Hw as <-. clear Hk.
    induction k as [|k IHk]; [reflexivity|]. simpl. now rewrite Hr, Hpar.
  - rewrite length_app in Hk. simpl in Hk.
    destruct k as [|k]; [lia|].
    apply walk_snoc in Hw. destruct Hw as (q & qn & Hq & Hqn & Hf).
    destruct (wf_children fs Hwf _ _ _ _ Hqn (find_In _ _ _ Hf))
      as (cn & Hc & _ & Hcp).
    simpl. rewrite Hc, Hcp. apply (IH q k Hq). lia.
Qed.

(** X16: going up never fails: with at least as many [".."] segments as the
    path printed by [pwd] has segments, [cd] ends at the root. *)
Theorem X16_enough_dotdot_reaches_root (fs : FileSystem) (p : string)
    (k : nat) :
  reachable fs ->
  pwd fs = Some [p] ->
  List.length (splitPath p) <= k ->
  cd (up_path k) fs = Some (set_currentDirectory fs (root fs), []).
Proof.
  intros Hreach Hpwd Hk. apply reachable_wf in Hreach.
  destruct (wf_root fs Hreach) as (Hroot & _).
  destruct (wf_cursor fs Hreach) as (names & n & Hseg & Hw & _).
  unfold pwd in Hpwd. rewrite (getPath_walk fs Hreach _ _ Hw) in Hpwd.
  injection Hpwd as <-. rewrite splitPath_abs_path in Hk by assumption.
  apply cd_success_iff. exists (root fs). split; [|reflexivity].
  rewrite splitPath_up_path, Hroot.
  assert (Hst : cd_start (up_path k) fs = currentDirectory fs)
    by now destruct k.
  rewrite Hst. eapply navigateToPath_up; eassumption.
Qed.

Lemma X16_witness :
  cd "../../../" sample = Some (set_currentDirectory sample (root sample), []).
Proof.
  apply (X16_enough_dotdot_reaches_root sample "/home/user" 3 sample_reachable);
    [reflexivity|].
  change (splitPath "/home/user") with ["home"; "user"]. simpl. lia.
Defined.

(** ** What creation changes and what it keeps *)

Lemma create_success ty err nm fs fs1 :
  create ty err nm fs = Some (fs1, []) ->
  exists cur,
    deref fs (currentDirectory fs) = Some cur /\
    StdMap.find nm (children cur) = None /\
    isValidName nm = true /\
    fs1 = created ty nm fs cur.
Proof.
  intros H. apply create_inv in H.
  destruct H as [(_ & _ & [=])|(Hv & cur & Hcur & [(_ & _ & [=])|(Hf & -> & _)])].
  eauto.
Qed.

Lemma child_path_abs_path names nm :
  Forall segment_ok names ->
  child_path (abs_path names) nm = abs_path (names ++ [nm]).
Proof.
  intros Hseg. unfold child_path. destruct names as [|s names].
  - simpl. now rewrite append_empty_r.
  - change (abs_path (s :: names)) with (join (s :: names)).
    destruct (join_not_root (s :: names) Hseg) as [-> _]; [discriminate|].
    change ((s :: names) ++ [nm])%list with (s :: (names ++ [nm]))%list.
    change (abs_path (s :: (names ++ [nm])%list))
      with (join ((s :: names) ++ [nm])).
    now rewrite join_snoc.
Qed.

Section AfterCreation.

Variables (ty : NodeType) (nm : string) (fs : FileSystem) (cur : Node).
Hypothesis Hwf : wf fs.
Hypothesis Hcur : deref fs (currentDirectory fs) = Some cur.
Hypothesis Hnm : StdMap.find nm (children cur) = None.
Hypothesis Hvalid : isValidName nm = true.

(** The cursor is where it was, and is reached by the same names. *)
Lemma created_cursor_walk :
  exists names,
    Forall segment_ok names /\
    walk fs names 0 = Some (currentDirectory fs) /\
    walk (created ty nm fs cur) names 0 = Some (currentDirectory fs) /\
    walk (created ty nm fs cur) (names ++ [nm]) 0 =
      Some (List.length (mem fs)).
Proof.
  destruct (wf_cursor fs Hwf) as (names & n & Hseg & Hw & _).
  pose proof (walk_created ty nm fs cur Hcur names 0 _ Hnm Hw) as Hw1.
  exists names. repeat split; auto.
  rewrite walk_app, Hw1. simpl.
  rewrite (deref_created_cur ty nm fs cur Hcur). simpl.
  now rewrite find_insert_same.
Qed.

Lemma created_pwd :
  pwd (created ty nm fs cur) = pwd fs.
Proof.
  destruct created_cursor_walk as (names & _ & Hw & Hw1 & _).
  pose proof (created_wf ty nm fs cur Hwf Hcur Hnm Hvalid) as Hwf1.
  unfold pwd. change (currentDirectory (created ty nm fs cur))
    with (currentDirectory fs).
  now rewrite (getPath_walk _ Hwf1 _ _ Hw1), (getPath_walk _ Hwf _ _ Hw).
Qed.

(** Resolution that succeeded before the creation succeeds after it, with
    the same result. *)
Lemma navigateToPath_created parts : forall start t,
  navigateToPath fs parts start = Some (Some t) ->
  navigateToPath (created ty nm fs cur) parts start = Some (Some t).
Proof.
  induction parts as [|part rest IH]; intros start t; simpl; [auto|].
  destruct (part =? "..").
  { destruct (deref fs start) as [n|] eqn:Hn; [|discriminate].
    destruct (deref_created_old ty nm fs cur Hcur _ _ Hn)
      as (n' & -> & _ & _ & -> & _).
    destruct (parent n); apply IH. }
  destruct (part =? "."); cbn [negb]; [apply IH|].
  destruct (deref fs start) as [n|] eqn:Hn; [|discriminate].
  destruct (deref_created_old ty nm fs cur Hcur _ _ Hn)
    as (n' & -> & _ & -> & _ & Hch).
  destruct (type n); [discriminate|].
  rewrite !count_find.
  destruct (StdMap.find part (children n)) as [c|] eqn:Hf; [|discriminate].
  rewrite (Hch _ _ Hf Hnm). simpl.
  destruct (deref fs c) as [cn|] eqn:Hc; [|discriminate].
  destruct (deref_created_old ty nm fs cur Hcur _ _ Hc)
    as (cn' & -> & _ & -> & _).
  destruct (type cn); [discriminate|apply IH].
Qed.

(** Listing old entries gives the same lines. *)
Lemma ls_loop_created_old it :
  (forall k c, In (k, c) it -> exists n, deref fs c = Some n) ->
  ls_loop (created ty nm fs cur) it = ls_loop fs it.
Proof.
  induction it as [|[k c] it IH]; intros Hall; simpl; [reflexivity|].
  destruct (Hall k c) as (n & Hn); [now left|].
  destruct (deref_created_old ty nm fs cur Hcur _ _ Hn)
    as (n' & -> & _ & -> & _).
  rewrite Hn, IH; [reflexivity|].
  intros k' c' Hin. apply (Hall k' c'). now right.
Qed.

Lemma ls_loop_created_insert it : forall l0,
  (forall k c, In (k, c) it -> exists n, deref fs c = Some n) ->
  StdMap.find nm it = None ->
  ls_loop fs it = Some l0 ->
  exists pre post,
    l0 = (pre ++ post)%list /\
    ls_loop (created ty nm fs cur)
      (StdMap.insert nm (List.length (mem fs)) it) =
    Some (pre ++ render_entry (nm, ty) :: post)%list.
Proof.
  pose proof (deref_created_fresh ty nm fs cur Hcur) as Hfresh.
  induction it as [|[k c] it IH]; intros l0 Hall Hfind Hls.
  - simpl in Hls. injection Hls as <-. exists [], []. split; [reflexivity|].
    simpl. now rewrite Hfresh.
  - simpl in Hfind. destruct (String.eqb_spec nm k) as [->|Hne];
      [discriminate|].
    simpl StdMap.insert. destruct (String.compare nm k) eqn:E.
    + apply String.compare_eq_iff in E. contradiction.
    + exists [], l0. split; [reflexivity|].
      change (ls_loop (created ty nm fs cur)
                ((nm, List.length (mem fs)) :: (k, c) :: it))
        with (n <- deref (created ty nm fs cur) (List.length (mem fs)) ;;
              out <- ls_loop (created ty nm fs cur) ((k, c) :: it) ;;
              Some ((nm ++ match type n with DIRECTORY => "/" | FILE => "" end)
                      :: out)).
      rewrite Hfresh, (ls_loop_created_old _ Hall), Hls. reflexivity.
    + simpl in Hls. destruct (deref fs c) as [n|] eqn:Hn; [|discriminate].
      destruct (ls_loop fs it) as [l0'|] eqn:Hls'; [|discriminate].
      injection Hls as <-.
      destruct (IH l0') as (pre & post & -> & Hins); auto.
      { intros k' c' Hin. apply (Hall k' c'). now right. }
      destruct (deref_created_old ty nm fs cur Hcur _ _ Hn)
        as (n' & Hn' & _ & Hty & _).
      exists ((k ++ match type n with DIRECTORY => "/" | FILE => "" end) :: pre),
        post.
      split; [reflexivity|]. simpl. now rewrite Hn', Hins, Hty.
Qed.

End AfterCreation.

Lemma Forall2_In_l {A B} (R : A -> B -> Prop) l l' x :
  Forall2 R l l' -> In x l -> exists y, In y l' /\ R x y.
Proof.
  induction 1 as [|a b l l' Hab _ IH]; simpl; [easy|].
  intros [<-|Hin]; [eauto|].
  destruct (IH Hin) as (y & ? & ?). eauto.
Qed.

(** X10: [mkdir] and [touch], whether they succeed or not, leave the cursor
    and the root where they were, and [pwd] prints the same path. *)
Theorem X10_create_keeps_cursor_and_pwd (fs fs1 : FileSystem) (nm : string)
    (out : list string) :
  reachable fs ->
  mkdir nm fs = Some (fs1, out) \/ touch nm fs = Some (fs1, out) ->
  currentDirectory fs1 = currentDirectory fs /\
  root fs1 = root fs /\
  pwd fs1 = pwd fs.
Proof.
  intros Hreach H. apply reachable_wf in Hreach.
  assert (Hc : exists ty err, create ty err nm fs = Some (fs1, out))
    by (destruct H; eauto).
  destruct Hc as (ty & err & Hc). apply create_inv in Hc.
  destruct Hc as [(_ & -> & _)|(Hv & cur & Hcur & [(_ & -> & _)|(Hf & -> & _)])];
    auto.
  repeat split. now apply created_pwd.
Qed.

Lemma X10_witness :
  exists fs1,
    touch "notes" sample = Some (fs1, []) /\
    currentDirectory fs1 = 2 /\ pwd fs1 = Some ["/home/user"].
Proof.
  assert (H : exists fs1, touch "notes" sample = Some (fs1, []))
    by (eexists; lazy; reflexivity).
  destruct H as (fs1 & H). exists fs1. split; [exact H|].
  destruct (X10_create_keeps_cursor_and_pwd sample fs1 "notes" []
              sample_reachable (or_intror H)) as (H1 & _ & H2).
  split; [exact H1|exact H2].
Defined.

(** X6: a directory just created under an ordinary name can be entered:
    [cd] to that name succeeds, [pwd] then prints the old path extended by
    the name, [ls] prints nothing, and [cd("..")] leads back. *)
Theorem X6_mkdir_then_cd (fs fs1 : FileSystem) (nm p : string) :
  reachable fs -> segment_ok nm ->
  mkdir nm fs = Some (fs1, []) ->
  pwd fs = Some [p] ->
  exists fs2,
    cd nm fs1 = Some (fs2, []) /\
    pwd fs2 = Some [child_path p nm] /\
    ls fs2 = Some [] /\
    cd ".." fs2 = Some (fs1, []).
Proof.
  intros Hreach Hs Hmk Hpwd. apply reachable_wf in Hreach.
  destruct (create_success _ _ _ _ _ Hmk) as (cur & Hcur & Hf & Hv & ->).
  pose proof (created_wf DIRECTORY nm fs cur Hreach Hcur Hf Hv) as Hwf1.
  pose proof (deref_created_cur DIRECTORY nm fs cur Hcur) as Hcur1.
  pose proof (deref_created_fresh DIRECTORY nm fs cur Hcur) as Hfresh.
  destruct (created_cursor_walk DIRECTORY nm fs cur Hreach Hcur Hf)
    as (names & Hseg & Hw & Hw1 & Hwnew).
  destruct (segment_ok_shape nm Hs) as (_ & Hrel & Hdd & Hd & Hsplit).
  set (fs1 := created DIRECTORY nm fs cur) in *.
  set (fresh := List.length (mem fs)) in *.
  assert (Htype : type cur = DIRECTORY).
  { destruct (wf_cursor fs Hreach) as (_ & n & _ & _ & Hn & Ht). congruence. }
  exists (set_currentDirectory fs1 fresh). split; [|split; [|split]].
  - apply cd_success_iff. exists fresh. split; [|reflexivity].
    unfold cd_start. rewrite Hrel, Hsplit. simpl. rewrite Hdd, Hd. cbn [negb].
    change (currentDirectory fs1) with (currentDirectory fs).
    rewrite Hcur1. cbn [type children]. rewrite Htype, count_find.
    rewrite find_insert_same. cbn [Nat.ltb Nat.leb]. now rewrite Hfresh.
  - unfold pwd in *. cbn [currentDirectory set_currentDirectory].
    rewrite (getPath_ext _ fs1) by reflexivity.
    rewrite (getPath_walk fs1 Hwf1 _ _ Hwnew).
    rewrite (getPath_walk fs Hreach _ _ Hw) in Hpwd. injection Hpwd as <-.
    now rewrite child_path_abs_path.
  - unfold ls. cbn [currentDirectory set_currentDirectory].
    change (deref (set_currentDirectory fs1 fresh) fresh)
      with (deref fs1 fresh).
    now rewrite Hfresh.
  - apply cd_success_iff. exists (currentDirectory fs).
    change (splitPath "..") with [".."]. split; [|reflexivity].
    change (cd_start ".." (set_currentDirectory fs1 fresh)) with fresh.
    rewrite (navigateToPath_ext _ fs1) by reflexivity.
    simpl. now rewrite Hfresh.
Qed.

Lemma X6_witness :
  exists fs1 fs2,
    mkdir "src" sample = Some (fs1, []) /\
    cd "src" fs1 = Some (fs2, []) /\
    pwd fs2 = Some ["/home/user/src"] /\
    ls fs2 = Some [] /\
    cd ".." fs2 = Some (fs1, []).
Proof.
  assert (H : exists fs1, mkdir "src" sample = Some (fs1, []))
    by (eexists; lazy; reflexivity).
  destruct H as (fs1 & H). exists fs1.
  destruct (X6_mkdir_then_cd sample fs1 "src" "/home/user" sample_reachable)
    as (fs2 & H2); [repeat split; discriminate|exact H|reflexivity|].
  exists fs2. split; [exact H|exact H2].
Defined.

(** X7: a file just created under an ordinary name cannot be entered: [cd]
    to that name prints the invalid-path error and changes nothing. *)
Theorem X7_touch_then_cd_fails (fs fs1 : FileSystem) (nm : string) :
  reachable fs -> segment_ok nm ->
  touch nm fs = Some (fs1, []) ->
  cd nm fs1 = Some (fs1, [err_path nm]).
Proof.
  intros Hreach Hs Htouch. apply reachable_wf in Hreach.
  destruct (create_success _ _ _ _ _ Htouch) as (cur & Hcur & Hf & Hv & ->).
  destruct (segment_ok_shape nm Hs) as (_ & Hrel & Hdd & Hd & Hsplit).
  unfold cd. fold (cd_start nm (created FILE nm fs cur)).
  assert (Hne : (nm =? "/") = false).
  { apply String.eqb_neq. intros ->. discriminate Hv. }
  rewrite Hne, Hsplit. unfold cd_start. rewrite Hrel.
  change (currentDirectory (created FILE nm fs cur))
    with (currentDirectory fs).
  rewrite (navigateToPath_unresolved _ nm [] (currentDirectory fs) _
             (deref_created_cur FILE nm fs cur Hcur)).
  - reflexivity.
  - now apply String.eqb_neq.
  - now apply String.eqb_neq.
  - right. eexists _, _. cbn [children]. rewrite find_insert_same.
    split; [reflexivity|].
    split; [exact (deref_created_fresh FILE nm fs cur Hcur)|reflexivity].
Qed.

Lemma X7_witness :
  exists fs1,
    touch "notes" sample = Some (fs1, []) /\
    cd "notes" fs1 = Some (fs1, [err_path "notes"]).
Proof.
  eexists. split; [lazy; reflexivity|].
  apply (X7_touch_then_cd_fails sample _ "notes" sample_reachable);
    [repeat split; discriminate|lazy; reflexivity].
Defined.

(** X8: an entry just created is found: after a successful [mkdir] or
    [touch] of [nm], the results of [find(nm)] contain the path of the
    cursor extended by [nm]. *)
Theorem X8_created_entry_is_found (fs fs1 : FileSystem) (nm p : string) :
  reachable fs ->
  mkdir nm fs = Some (fs1, []) \/ touch nm fs = Some (fs1, []) ->
  pwd fs = Some [p] ->
  exists paths,
    find_results fs1 nm = Some paths /\ In (child_path p nm) paths.
Proof.
  intros Hreach H Hpwd. apply reachable_wf in Hreach.
  assert (Hc : exists ty err, create ty err nm fs = Some (fs1, []))
    by (destruct H; eauto).
  destruct Hc as (ty & err & Hc).
  destruct (create_success _ _ _ _ _ Hc) as (cur & Hcur & Hf & Hv & ->).
  pose proof (created_wf ty nm fs cur Hreach Hcur Hf Hv) as Hwf1.
  pose proof (deref_created_fresh ty nm fs cur Hcur) as Hfresh.
  destruct (created_cursor_walk ty nm fs cur Hreach Hcur Hf)
    as (names & Hseg & Hw & Hw1 & Hwnew).
  set (fs1 := created ty nm fs cur) in *.
  destruct (wf_root fs1 Hwf1) as (Hroot & r & Hr & _).
  destruct (preorder_total fs1 Hwf1 (List.length (mem fs1)) 0) as (nodes & Hpre);
    [eapply deref_lt; eassumption|lia|].
  destruct (find_helper_preorder fs1 Hwf1 nm _ _ [] _ Hpre)
    as (paths & Hfind & Hall).
  exists paths. split.
  { unfold find_results. rewrite Hroot. exact Hfind. }
  assert (Hin : In (List.length (mem fs))
                  (filter (has_name fs1 nm) nodes)).
  { apply filter_In. split.
    - eapply preorder_complete; eassumption.
    - unfold has_name. rewrite Hfresh. apply String.eqb_refl. }
  destruct (Forall2_In_l _ _ _ _ Hall Hin) as (path & Hpath & names' & Hw' & ->).
  rewrite Hroot in Hw'.
  rewrite (walk_inj fs1 Hwf1 _ _ _ _ Hw' Hwnew) in Hpath.
  unfold pwd in Hpwd. rewrite (getPath_walk fs Hreach _ _ Hw) in Hpwd.
  injection Hpwd as <-. now rewrite child_path_abs_path.
Qed.

Lemma X8_witness :
  exists fs1 paths,
    touch "user" sample = Some (fs1, []) /\
    find_results fs1 "user" = Some paths /\
    In "/home/user/user" paths.
Proof.
  assert (H : exists fs1, touch "user" sample = Some (fs1, []))
    by (eexists; lazy; reflexivity).
  destruct H as (fs1 & H). exists fs1.
  destruct (X8_created_entry_is_found sample fs1 "user" "/home/user"
              sample_reachable (or_intror H) eq_refl)
    as (paths & H1 & H2).
  exists paths. split; [exact H|]. split; [exact H1|exact H2].
Defined.

(** X9: a successful [mkdir] or [touch] adds exactly one line to what [ls]
    prints and keeps the other lines and their order: the new listing is the
    old one with the line of the new entry inserted. *)
Theorem X9_create_inserts_one_ls_line (fs : FileSystem) (nm : string)
    (l0 : list string) :
  reachable fs ->
  ls fs = Some l0 ->
  (forall fs1, mkdir nm fs = Some (fs1, []) ->
     exists pre post, l0 = (pre ++ post)%list /\
       ls fs1 = Some (pre ++ (nm ++ "/")%string :: post)%list) /\
  (forall fs1, touch nm fs = Some (fs1, []) ->
     exists pre post, l0 = (pre ++ post)%list /\
       ls fs1 = Some (pre ++ nm :: post)%list).
Proof.
  intros Hreach Hls. apply reachable_wf in Hreach.
  assert (H : forall ty err fs1, create ty err nm fs = Some (fs1, []) ->
            exists pre post, l0 = (pre ++ post)%list /\
              ls fs1 = Some (pre ++ render_entry (nm, ty) :: post)%list).
  { intros ty err fs1 Hc.
    destruct (create_success _ _ _ _ _ Hc) as (cur & Hcur & Hf & Hv & ->).
    unfold ls in *. rewrite Hcur in Hls.
    change (currentDirectory (created ty nm fs cur))
      with (currentDirectory fs).
    rewrite (deref_created_cur ty nm fs cur Hcur). cbn [children].
    apply ls_loop_created_insert; auto.
    intros k c Hin.
    destruct (wf_children fs Hreach _ _ _ _ Hcur Hin) as (cn & Hc' & _).
    eauto. }
  split; intros fs1 Hc.
  - exact (H DIRECTORY _ _ Hc).
  - destruct (H FILE _ _ Hc) as (pre & post & H1 & H2).
    exists pre, post. split; [exact H1|].
    unfold render_entry in H2. simpl in H2. now rewrite append_empty_r in H2.
Qed.

Lemma X9_witness :
  exists fs1,
    mkdir "Music" sample = Some (fs1, []) /\
    exists pre post,
      ["Documents/"; "Downloads/"; "profile.txt"] = (pre ++ post)%list /\
      ls fs1 = Some (pre ++ "Music/" :: post)%list.
Proof.
  eexists. split; [lazy; reflexivity|].
  apply (proj1 (X9_create_inserts_one_ls_line sample "Music" _
                  sample_reachable eq_refl)).
  lazy; reflexivity.
Defined.

(** X11: creating an entry breaks no path: a [cd] that succeeded before a
    [mkdir] or [touch] succeeds after it and puts the cursor on the same
    node. *)
Theorem X11_creation_keeps_paths (fs fs1 fsA : FileSystem) (nm path : string)
    (out : list string) :
  reachable fs ->
  mkdir nm fs = Some (fs1, out) \/ touch nm fs = Some (fs1, out) ->
  cd path fs = Some (fsA, []) ->
  cd path fs1 = Some (set_currentDirectory fs1 (currentDirectory fsA), []).
Proof.
  intros Hreach H Hcd. apply reachable_wf in Hreach.
  apply cd_success_iff in Hcd. destruct Hcd as (t & Hnav & ->).
  assert (Hc : exists ty err, create ty err nm fs = Some (fs1, out))
    by (destruct H; eauto).
  destruct Hc as (ty & err & Hc). apply create_inv in Hc.
  apply cd_success_iff. exists t. split; [|reflexivity].
  destruct Hc as [(_ & -> & _)|(Hv & cur & Hcur & [(_ & -> & _)|(Hf & -> & _)])];
    try exact Hnav.
  change (cd_start path (created ty nm fs cur)) with (cd_start path fs).
  now apply navigateToPath_created.
Qed.

Lemma X11_witness :
  exists fs1,
    mkdir "Music" sample = Some (fs1, []) /\
    cd "/home/user/Documents" fs1 = Some (set_currentDirectory fs1 4, []).
Proof.
  eexists. split; [lazy; reflexivity|].
  apply (X11_creation_keeps_paths sample _ (set_currentDirectory sample 4)
           "Music" "/home/user/Documents" [] sample_reachable);
    [left; lazy; reflexivity|vm_compute; reflexivity].
Defined.


(** ** The command loop *)


Lemma read_word_no_space ss :
  no_space (fst (read_word ss)) = true.
Proof.
  induction ss as [|c ss IH]; [reflexivity|]. simpl.
  destruct (isspace c) eqn:E; [reflexivity|].
  destruct (read_word ss). simpl in *. now rewrite E.
Qed.

Lemma extract_word ss w ss' :
  extract ss = Some (w, ss') -> w <> "" /\ no_space w = true.
Proof.
  unfold extract. destruct (skip_ws ss) as [|c r] eqn:E; [discriminate|].
  intros [= H]. split.
  - assert (Hc : isspace c = false).
    { clear H. induction ss as [|x ss IH]; [discriminate|].
      simpl in E. destruct (isspace x) eqn:Ex; [auto|].
      injection E as -> _. exact Ex. }
    simpl in H. rewrite Hc in H. destruct (read_word r).
    injection H as <- _. discriminate.
  - change (no_space (fst (w, ss')) = true). rewrite <- H.
    apply (read_word_no_space (String c r)).
Qed.

(** The words the loop dispatches on contain no white space. *)
Lemma parse_line_no_space line :
  no_space (fst (parse_line line)) = true /\
  no_space (snd (parse_line line)) = true.
Proof.
  unfold parse_line.
  destruct (extract line) as [[command ss]|] eqn:E1; [|now split].
  destruct (extract_word _ _ _ E1) as (_ & H1).
  destruct (extract ss) as [[argument ss']|] eqn:E2; [|now split].
  destruct (extract_word _ _ _ E2) as (_ & H2). now split.
Qed.

Lemma start_fs_reachable : reachable start_fs.
Proof.
  apply (reach_cd sample "/" start_fs [] sample_reachable). reflexivity.
Defined.

Lemma run_setup : run setup FileSystem_new = Some (start_fs, []).
Proof. vm_compute. reflexivity. Qed.

Lemma dispatch_inv fs command argument fs' out :
  dispatch fs command argument = Some (fs', out) ->
  fs' = fs \/
  argument <> "" /\
  (mkdir argument fs = Some (fs', out) \/
   touch argument fs = Some (fs', out) \/
   cd argument fs = Some (fs', out)).
Proof.
  unfold dispatch.
  destruct (command =? "pwd").
  { destruct (pwd fs); [|discriminate]. intros [= <- _]. now left. }
  destruct (command =? "ls").
  { destruct (ls fs); [|discriminate]. intros [= <- _]. now left. }
  destruct (command =? "mkdir").
  { destruct (String.eqb_spec argument "") as [->|Hne].
    - intros [= <- _]. now left.
    - intros H. right. auto. }
  destruct (command =? "touch").
  { destruct (String.eqb_spec argument "") as [->|Hne].
    - intros [= <- _]. now left.
    - intros H. right. auto. }
  destruct (command =? "cd").
  { destruct (String.eqb_spec argument "") as [->|Hne].
    - intros [= <- _]. now left.
    - intros H. right. auto. }
  destruct (command =? "find").
  { destruct (argument =? ""); [intros [= <- _]; now left|].
    destruct (find fs argument); [|discriminate]. intros [= <- _]. now left. }
  destruct (command =? "help"); [intros [= <- _]; now left|].
  destruct (negb (command =? "")); intros [= <- _]; now left.
Qed.

Lemma dispatch_reachable fs command argument fs' out :
  reachable fs -> dispatch fs command argument = Some (fs', out) ->
  reachable fs'.
Proof.
  intros Hr H. apply dispatch_inv in H.
  destruct H as [->|(_ & [H|[H|H]])]; eauto using reachable.
Qed.




Lemma names_of_start_fs a n :
  deref start_fs a = Some n -> a <> 0 ->
  name n <> "" /\ no_space (name n) = true.
Proof.
  unfold deref, start_fs, sample. cbn [mem].
  do 8 (destruct a as [|a]; [simpl; intros [= <-] H; try contradiction;
                             (split; [discriminate|reflexivity])|]).
  simpl. destruct a; discriminate.
Qed.

Lemma cli_reachable_inv fs :
  cli_reachable fs ->
  reachable fs /\
  forall a n, deref fs a = Some n -> a <> 0 ->
    name n <> "" /\ no_space (name n) = true.
Proof.
  intros Hcli.
  induction Hcli as [fs out Hrun|fs line fs' out _ [Hr IH] Hd].
  - rewrite run_setup in Hrun. injection Hrun as <- _.
    split; [exact start_fs_reachable|exact names_of_start_fs].
  - split; [eapply dispatch_reachable; eassumption|].
    destruct (parse_line_no_space line) as (_ & Hns).
    apply dispatch_inv in Hd.
    destruct Hd as [->|(Hne & Hop)]; [exact IH|].
    assert (Hcase : (exists ty err,
                       create ty err (snd (parse_line line)) fs =
                         Some (fs', out)) \/
                    cd (snd (parse_line line)) fs = Some (fs', out)).
    { destruct Hop as [H|[H|H]]; [left|left|right]; eauto. }
    destruct Hcase as [(ty & err & Hc)|Hc].
    + apply create_inv in Hc.
      destruct Hc as [(_ & -> & _)|(_ & cur & Hcur & [(_ & -> & _)|(_ & -> & _)])];
        try exact IH.
      intros a n Ha Ha0.
      destruct (deref_created_inv ty _ fs cur Hcur _ _ Ha)
        as [[-> ->]|[[-> ->]|(_ & _ & Hold)]].
      * exact (IH _ _ Hcur Ha0).
      * now split.
      * exact (IH _ _ Hold Ha0).
    + destruct (cd_mem _ _ _ _ Hc) as (Hm & _).
      intros a n Ha. rewrite (deref_ext fs' fs a Hm) in Ha. now apply IH.
Qed.

(** X18: through the command loop no entry with an empty name, with white
    space or with a separator in its name ever comes into being: in every
    state of the loop each node other than the root has such a name.  (The
    loop refuses an empty argument, and its words are split at white
    space.) *)
Theorem X18_cli_names_are_proper (fs : FileSystem) :
  cli_reachable fs ->
  reachable fs /\
  forall a n, deref fs a = Some n -> a <> root fs ->
    name n <> "" /\ no_space (name n) = true /\
    ~ contains_separator (name n).
Proof.
  intros Hcli. destruct (cli_reachable_inv fs Hcli) as (Hr & Hnames).
  split; [exact Hr|].
  pose proof (reachable_wf _ Hr) as Hwf.
  destruct (wf_root fs Hwf) as (Hroot & _). rewrite Hroot.
  intros a n Ha Ha0. destruct (Hnames _ _ Ha Ha0) as (H1 & H2).
  repeat split; auto.
  destruct (wf_parent fs Hwf _ _ Ha Ha0) as (_ & _ & _ & _ & _ & _ & Hv).
  intros Hc. apply isValidName_spec in Hc. congruence.
Qed.

Lemma X18_witness :
  exists fs,
    dispatch start_fs (fst (parse_line "mkdir  my docs"))
      (snd (parse_line "mkdir  my docs")) = Some (fs, []) /\
    forall a n, deref fs a = Some n -> a <> root fs ->
      name n <> "" /\ no_space (name n) = true /\
      ~ contains_separator (name n).
Proof.
  assert (H : exists fs,
            dispatch start_fs (fst (parse_line "mkdir  my docs"))
              (snd (parse_line "mkdir  my docs")) = Some (fs, []))
    by (eexists; lazy; reflexivity).
  destruct H as (fs & H). exists fs. split; [exact H|].
  apply (X18_cli_names_are_proper fs).
  eapply cli_step; [|exact H]. eapply cli_start. exact run_setup.
Defined.


Lemma splitPath_abs_path_valid names :
  Forall (fun p => p <> "" /\ isValidName p = true) names ->
  splitPath (abs_path names) = names.
Proof.
  intros Hl. destruct names as [|s l]; [reflexivity|].
  unfold abs_path. now apply splitPath_join.
Qed.

Lemma walk_names fs (P : string -> Prop) :
  wf fs ->
  (forall a n, deref fs a = Some n -> a <> 0 -> P (name n)) ->
  forall names a, walk fs names 0 = Some a -> Forall P names.
Proof.
  intros Hwf HP names.
  induction names as [|s names IH] using List.rev_ind; intros a Hw;
    [constructor|].
  apply walk_snoc in Hw. destruct Hw as (q & qn & Hq & Hqn & Hf).
  apply Forall_app. split; [eapply IH; eassumption|].
  constructor; [|constructor].
  destruct (wf_children fs Hwf _ _ _ _ Hqn (find_In _ _ _ Hf))
    as (cn & Hc & <- & _).
  pose proof (wf_child_lt fs Hwf _ _ _ _ Hqn (find_In _ _ _ Hf)).
  apply (HP _ _ Hc). lia.
Qed.

Lemma Forall2_NoDup {A B} (R : A -> B -> Prop) l l' :
  Forall2 R l l' -> NoDup l ->
  (forall x y z, In x l -> In y l -> R x z -> R y z -> x = y) ->
  NoDup l'.
Proof.
  induction 1 as [|a b l l' Hab Hall IH]; intros Hnd Hinj; [constructor|].
  inversion Hnd as [|? ? Hnotin Hnd']; subst. constructor.
  - intros Hin. apply Hnotin.
    assert (Hex : exists x, In x l /\ R x b).
    { clear -Hall Hin. induction Hall as [|x y l l' Hxy _ IH']; [easy|].
      destruct Hin as [<-|Hin]; [exists x; split; [now left|assumption]|].
      destruct (IH' Hin) as (x' & ? & ?). exists x'. split; [now right|assumption]. }
    destruct Hex as (x & Hx & Hxb).
    rewrite (Hinj a x b); auto; [now left|now right].
  - apply IH; [assumption|].
    intros x y z Hx Hy. apply Hinj; now right.
Qed.

(** X19: in a state of the command loop [find] never prints a path twice,
    and a printed path denotes a single entry: the paths of distinct entries
    differ. *)
Theorem X19_cli_find_paths_distinct (fs : FileSystem) (nm : string)
    (paths : list string) :
  cli_reachable fs ->
  find_results fs nm = Some paths ->
  NoDup paths /\
  (forall a b p, is_abs_path_of fs a p -> is_abs_path_of fs b p -> a = b).
Proof.
  intros Hcli Hfind. destruct (cli_reachable_inv fs Hcli) as (Hr & Hnames).
  pose proof (reachable_wf _ Hr) as Hwf.
  destruct (wf_root fs Hwf) as (Hroot & r & Hroot_node & _).
  assert (Hinj : forall a b p,
            is_abs_path_of fs a p -> is_abs_path_of fs b p -> a = b).
  { intros a b p (na & Ha & ->) (nb & Hb & Heq). rewrite Hroot in Ha, Hb.
    assert (Hvalid : forall names x, walk fs names 0 = Some x ->
              Forall (fun s => s <> "" /\ isValidName s = true) names).
    { apply (walk_names fs _ Hwf). intros x n Hx Hx0.
      destruct (Hnames _ _ Hx Hx0) as (Hne & _).
      destruct (wf_parent fs Hwf _ _ Hx Hx0) as (_ & _ & _ & _ & _ & _ & Hv).
      now split. }
    apply (f_equal splitPath) in Heq.
    rewrite !splitPath_abs_path_valid in Heq by eauto.
    subst nb. congruence. }
  split; [|exact Hinj].
  destruct (preorder_total fs Hwf (List.length (mem fs)) 0) as (nodes & Hpre);
    [eapply deref_lt; eassumption|lia|].
  destruct (find_helper_preorder fs Hwf nm _ _ [] _ Hpre)
    as (paths' & Hfind' & Hall).
  unfold find_results in Hfind. rewrite Hroot, Hfind' in Hfind.
  injection Hfind as <-.
  eapply Forall2_NoDup; [exact Hall| |].
  - apply NoDup_filter. eapply preorder_NoDup; eassumption.
  - intros x y z _ _. apply Hinj.
Qed.

Lemma X19_witness :
  NoDup ["/home/user"] /\
  (forall a b p, is_abs_path_of start_fs a p -> is_abs_path_of start_fs b p ->
                 a = b).
Proof.
  apply (X19_cli_find_paths_distinct start_fs "user" ["/home/user"]).
  - eapply cli_start. exact run_setup.
  - reflexivity.
Defined.

(** ** Reading a command line *)

Lemma skip_ws_all_space w s : all_space w = true -> skip_ws (w ++ s) = skip_ws s.
Proof.
  induction w as [|c w IH]; [reflexivity|]. simpl.
  destruct (isspace c); [exact IH|discriminate].
Qed.

Lemma skip_ws_word c s : no_space (String c s) = true ->
  forall rest, skip_ws (String c s ++ rest) = String c s ++ rest.
Proof. simpl. now destruct (isspace c). Qed.

Lemma read_word_word w rest :
  no_space w = true ->
  rest = "" \/ (exists c r, rest = String c r /\ isspace c = true) ->
  read_word (w ++ rest) = (w, rest).
Proof.
  intros Hw Hrest. induction w as [|c w IH]; simpl.
  - destruct Hrest as [->|(c & r & -> & Hc)]; [reflexivity|].
    simpl. now rewrite Hc.
  - simpl in Hw. destruct (isspace c); [discriminate|].
    now rewrite (IH Hw).
Qed.

Lemma extract_word_padded w0 w rest :
  all_space w0 = true -> w <> "" -> no_space w = true ->
  rest = "" \/ (exists c r, rest = String c r /\ isspace c = true) ->
  extract (w0 ++ w ++ rest) = Some (w, rest).
Proof.
  intros H0 Hne Hw Hrest. unfold extract.
  rewrite (skip_ws_all_space _ _ H0).
  destruct w as [|c w]; [contradiction|].
  rewrite (skip_ws_word _ _ Hw).
  change (String c w ++ rest) with (String c (w ++ rest)). cbv iota.
  change (String c (w ++ rest)) with (String c w ++ rest).
  now rewrite (read_word_word _ _ Hw Hrest).
Qed.

(** X20: a command line is read as its first two words: white space before
    the command, the amount of white space between command and argument, and
    anything after the argument make no difference; with no second word the
    argument is empty. *)
Theorem X20_parse_line_first_two_words (command argument : string) :
  command <> "" -> no_space command = true ->
  argument <> "" -> no_space argument = true ->
  (forall w0 w1 rest,
     all_space w0 = true -> all_space w1 = true -> w1 <> "" ->
     rest = "" \/ (exists c r, rest = String c r /\ isspace c = true) ->
     parse_line (w0 ++ command ++ w1 ++ argument ++ rest) =
       (command, argument)) /\
  (forall w0 w1,
     all_space w0 = true -> all_space w1 = true ->
     parse_line (w0 ++ command ++ w1) = (command, "")).
Proof.
  intros Hc Hcs Ha Has. split.
  - intros w0 w1 rest H0 H1 Hw1 Hrest. unfold parse_line.
    rewrite (extract_word_padded w0 command (w1 ++ argument ++ rest));
      auto.
    + now rewrite (extract_word_padded w1 argument rest).
    + right. destruct w1 as [|c w1]; [contradiction|].
      exists c, (w1 ++ argument ++ rest). split; [reflexivity|].
      simpl in H1. now destruct (isspace c).
  - intros w0 w1 H0 H1. unfold parse_line.
    rewrite (extract_word_padded w0 command w1); auto.
    + unfold extract.
      rewrite <- (append_empty_r w1), (skip_ws_all_space _ _ H1).
      reflexivity.
    + destruct w1 as [|c w1]; [now left|right].
      exists c, w1. split; [reflexivity|].
      simpl in H1. now destruct (isspace c).
Qed.

Lemma X20_witness :
  parse_line "   mkdir   docs and more" = ("mkdir", "docs") /\
  parse_line " ls  " = ("ls", "").
Proof.
  split.
  - apply (proj1 (X20_parse_line_first_two_words "mkdir" "docs"
             ltac:(discriminate) eq_refl ltac:(discriminate) eq_refl)
             "   " "   " " and more"); try reflexivity; [discriminate|].
    right. eexists _, _. split; reflexivity.
  - apply (proj2 (X20_parse_line_first_two_words "ls" "x"
             ltac:(discriminate) eq_refl ltac:(discriminate) eq_refl)
             " " "  "); reflexivity.
Defined.
